(** * GOG Galaxy game-store adapter (src/index.ts): discovery, enumeration,
      cache and lookup, as a shallow embedding.

    The adapter is a TypeScript class [GoGLauncher].  Its methods return
    promises; a promise is modelled by the outcome it settles with.  The
    operating system (registry, file system, environment) is an explicit
    [World] value read by each operation; the instance fields [mClientPath]
    and [mCache] are an explicit [State]. *)

From Stdlib Require Import String Ascii List Bool Arith Lia.
Import ListNotations.
Open Scope string_scope.

Set Implicit Arguments.

(* ================================================================== *)
(** ** JavaScript values *)

(** The result of [JSON.parse] is untyped ([any]); the fields read from it
    flow into the entries unchanged.  A number is carried by its canonical
    decimal rendering (what [String(n)] yields), which is all the code
    observes of it: its truthiness and its interpolation into a string.
    Strings are sequences of code units, here the 8-bit ones. *)
#[warnings="-register-all"]
Inductive value : Type :=
| VUndefined
| VNull
| VBool (b : bool)
| VNum (repr : string)
| VStr (s : string)
| VArr (items : list value)
| VObj (fields : list (string * value)).

(** ToBoolean *)
Definition truthy (v : value) : bool :=
  match v with
  | VUndefined | VNull => false
  | VBool b => b
  | VNum r => negb (r =? "0")
  | VStr s => negb (s =? "")
  | VArr _ | VObj _ => true
  end.

(** [a || b] *)
Definition js_or (a b : value) : value := if truthy a then a else b.

(** Does the object own the key [k]? *)
Fixpoint hasKey (k : string) (fields : list (string * value)) : bool :=
  match fields with
  | [] => false
  | (k', _) :: rest => (k =? k') || hasKey k rest
  end.

(** ToString, as a template literal and [RegExp.prototype.test] apply it.
    [None] is the TypeError of a value that cannot be converted to a
    primitive: an object that owns a key [toString] (its value, coming
    from [JSON.parse], is no function and is passed over, and
    [Object.prototype.valueOf] hands back the object itself), alone or as
    an element of an array, whose elements [Array.prototype.join] converts
    in turn. *)
Fixpoint ToString (v : value) : option string :=
  match v with
  | VUndefined => Some "undefined"
  | VNull => Some "null"
  | VBool true => Some "true"
  | VBool false => Some "false"
  | VNum r => Some r
  | VStr s => Some s
  | VArr items =>
      option_map (String.concat ",")
        ((fix each (l : list value) : option (list string) :=
            match l with
            | [] => Some []
            | x :: l' =>
                match match x with
                      | VUndefined | VNull => Some ""
                      | _ => ToString x
                      end, each l' with
                | Some s, Some ss => Some (s :: ss)
                | _, _ => None
                end
            end) items)
  | VObj fields =>
      if hasKey "toString" fields then None else Some "[object Object]"
  end.

Fixpoint assoc (k : string) (fields : list (string * value)) : value :=
  match fields with
  | [] => VUndefined
  | (k', v) :: rest => if k =? k' then v else assoc k rest
  end.

(** Property read [o.k]: [None] is the TypeError raised on [null] and
    [undefined]; primitives and arrays own none of the keys read here. *)
Definition getProp (o : value) (k : string) : option value :=
  match o with
  | VUndefined | VNull => None
  | VObj fields => Some (assoc k fields)
  | _ => Some VUndefined
  end.

(** [a === b] where [a] is a string. *)
Definition strict_eq_str (a : string) (b : value) : bool :=
  match b with
  | VStr s => a =? s
  | _ => false
  end.

(** [ids.includes(v)] for an array of strings. *)
Definition includes (ids : list string) (v : value) : bool :=
  existsb (fun a => strict_eq_str a v) ids.

(* ================================================================== *)
(** ** Outcomes of promises and of calls *)

Inductive JsError : Type :=
| GameEntryNotFound (query store : string)
| Error (message : string)
| SyntaxError (message : string)
| TypeError (message : string)
| RegistryError (code : string).

(** A call either hands back a promise that resolves or rejects, or it
    throws before any promise exists. *)
Inductive outcome (A : Type) : Type :=
| Resolved (a : A)
| Rejected (e : JsError)
| Threw (e : JsError).
Arguments Resolved {A} a.
Arguments Rejected {A} e.
Arguments Threw {A} e.

(** The TypeError of a failed [ToString]. *)
Definition notPrimitive : JsError :=
  TypeError "Cannot convert object to primitive value".

Inductive LogLevel := debug | info | warn | error.
Record LogEntry := { level : LogLevel; message : string }.
Definition log (l : LogLevel) (m : string) : LogEntry :=
  {| level := l; message := m |}.

(* ================================================================== *)
(** ** Constants of the module *)

Definition STORE_ID : string := "gog".
Definition STORE_NAME : string := "GOG".
Definition STORE_PRIORITY : nat := 15.
Definition GOG_EXEC : string := "GalaxyClient.exe".
Definition GOG_MAC_EXEC : string := "GOG Galaxy.app".
Definition REG_GOG_GAMES : string := "SOFTWARE\WOW6432Node\GOG.com\Games".

(* ================================================================== *)
(** ** [path.join] *)

(** Node's [path.join], after lib/path.js of Node 18, in both flavours:
    the non-empty parts are joined with the separator and the result is
    normalised (empty
    segments and [.] dropped, [..] resolved against what precedes it, a
    trailing separator kept, on win32 [/] read as a separator and the root
    of the path, drive or UNC share, recognised).  Paths are handled as
    lists of characters. *)
Module NodePath.
Local Open Scope list_scope.

Definition isPosixPathSeparator (c : ascii) : bool := Ascii.eqb c "/".

Definition isPathSeparator (c : ascii) : bool :=
  Ascii.eqb c "/" || Ascii.eqb c "\".

(** A drive letter: [A]-[Z] or [a]-[z]. *)
Definition isWindowsDeviceRoot (c : ascii) : bool :=
  let n := nat_of_ascii c in
  (Nat.leb 65 n && Nat.leb n 90) || (Nat.leb 97 n && Nat.leb n 122).

Definition chars_eqb (a b : list ascii) : bool :=
  String.eqb (string_of_list_ascii a) (string_of_list_ascii b).

(** The pieces of [cs] between separators; [cur] is the piece being read,
    reversed. *)
Fixpoint segments (isSep : ascii -> bool) (cs cur : list ascii) : list (list ascii) :=
  match cs with
  | [] => [rev cur]
  | c :: cs' =>
      if isSep c then rev cur :: segments isSep cs' []
      else segments isSep cs' (c :: cur)
  end.

(** One segment of [normalizeString]; [kept] holds the segments of the
    result so far, the last one first.  An empty segment and [.] are
    dropped; [..] removes the last kept segment unless there is none or it
    is [..] itself, in which case it is kept when the path may climb above
    its root; any other segment is kept. *)
Definition normalizeStep (allowAboveRoot : bool) (kept : list (list ascii))
           (seg : list ascii) : list (list ascii) :=
  match seg with
  | [] => kept
  | _ =>
      if chars_eqb seg ["."%char] then kept
      else if chars_eqb seg ["."%char; "."%char] then
        match kept with
        | top :: below =>
            if chars_eqb top ["."%char; "."%char] then
              if allowAboveRoot then seg :: kept else kept
            else below
        | [] => if allowAboveRoot then [seg] else []
        end
      else seg :: kept
  end.

Fixpoint joinWith (sep : ascii) (segs : list (list ascii)) : list ascii :=
  match segs with
  | [] => []
  | [s] => s
  | s :: rest => s ++ sep :: joinWith sep rest
  end.

(** [normalizeString(path, allowAboveRoot, separator, isPathSeparator)] *)
Definition normalizeString (allowAboveRoot : bool) (sep : ascii)
           (isSep : ascii -> bool) (path : list ascii) : list ascii :=
  joinWith sep
    (rev (fold_left (normalizeStep allowAboveRoot) (segments isSep path []) [])).

Definition endsWith (isSep : ascii -> bool) (path : list ascii) : bool :=
  match rev path with
  | c :: _ => isSep c
  | [] => false
  end.

Definition isNil {A : Type} (l : list A) : bool :=
  match l with [] => true | _ => false end.

(** [posix.normalize] *)
Definition posix_normalize (path : list ascii) : list ascii :=
  match path with
  | [] => ["."%char]
  | c :: _ =>
      let isAbsolute := isPosixPathSeparator c in
      let trailingSeparator := endsWith isPosixPathSeparator path in
      let p := normalizeString (negb isAbsolute) "/" isPosixPathSeparator path in
      if isNil p then
        if isAbsolute then ["/"%char]
        else if trailingSeparator then ["."%char; "/"%char] else ["."%char]
      else
        (if isAbsolute then ["/"%char] else []) ++ p ++
        (if trailingSeparator then ["/"%char] else [])
  end.

Definition nonEmpty (args : list (list ascii)) : list (list ascii) :=
  filter (fun a => negb (isNil a)) args.

(** [posix.join] *)
Definition posix_join (args : list (list ascii)) : list ascii :=
  match nonEmpty args with
  | [] => ["."%char]
  | parts => posix_normalize (joinWith "/" parts)
  end.

Fixpoint span {A : Type} (p : A -> bool) (l : list A) : list A * list A :=
  match l with
  | x :: l' =>
      if p x then let (a, b) := span p l' in (x :: a, b) else ([], l)
  | [] => ([], [])
  end.

Fixpoint dropWhile {A : Type} (p : A -> bool) (l : list A) : list A :=
  match l with
  | x :: l' => if p x then dropWhile p l' else l
  | [] => []
  end.

(** The end of [win32.normalize]: [rest] is the path behind its root. *)
Definition win32_finish (path : list ascii) (device : option (list ascii))
           (isAbsolute : bool) (rest : list ascii) : list ascii :=
  let tail0 := normalizeString (negb isAbsolute) "\" isPathSeparator rest in
  let tail1 := if isNil tail0 && negb isAbsolute then ["."%char] else tail0 in
  let tail2 := if negb (isNil tail1) && endsWith isPathSeparator path
               then tail1 ++ ["\"%char] else tail1 in
  match device with
  | None => if isAbsolute then "\"%char :: tail2 else tail2
  | Some d => if isAbsolute then d ++ "\"%char :: tail2 else d ++ tail2
  end.

(** [win32.normalize]: a root is recognised (a UNC root
    [\\server\share], a single separator, a drive with or without a
    separator behind it) and the rest normalised. *)
Definition win32_normalize (path : list ascii) : list ascii :=
  match path with
  | [] => ["."%char]
  | [c] => if isPosixPathSeparator c then ["\"%char] else [c]
  | c0 :: c1 :: rest =>
      if isPathSeparator c0 then
        if isPathSeparator c1 then
          let (firstPart, rest1) := span (fun c => negb (isPathSeparator c)) rest in
          match firstPart, rest1 with
          | _ :: _, _ :: _ =>
              match dropWhile isPathSeparator rest1 with
              | [] => win32_finish path None true path
              | rest2 =>
                  let (secondPart, rest3) :=
                    span (fun c => negb (isPathSeparator c)) rest2 in
                  match rest3 with
                  | [] => "\"%char :: "\"%char :: firstPart ++ "\"%char :: secondPart
                             ++ ["\"%char]
                  | _ => win32_finish path
                           (Some ("\"%char :: "\"%char :: firstPart ++ "\"%char :: secondPart))
                           true rest3
                  end
              end
          | _, _ => win32_finish path None true path
          end
        else win32_finish path None true (c1 :: rest)
      else if isWindowsDeviceRoot c0 && Ascii.eqb c1 ":" then
        match rest with
        | c2 :: rest' =>
            if isPathSeparator c2 then win32_finish path (Some [c0; c1]) true rest'
            else win32_finish path (Some [c0; c1]) false rest
        | [] => win32_finish path (Some [c0; c1]) false []
        end
      else win32_finish path None false path
  end.

(** In [win32.join]: the first part looks like a UNC path (two
    separators, then something else), so its leading separators stay. *)
Definition startsLikeUNC (firstPart : list ascii) : bool :=
  match firstPart with
  | c0 :: c1 :: c2 :: _ =>
      isPathSeparator c0 && isPathSeparator c1 && negb (isPathSeparator c2)
  | _ => false
  end.

(** [win32.join] *)
Definition win32_join (args : list (list ascii)) : list ascii :=
  match nonEmpty args with
  | [] => ["."%char]
  | firstPart :: others =>
      let joined := joinWith "\" (firstPart :: others) in
      let joined' :=
        if startsLikeUNC firstPart then joined
        else
          let (slashes, behind) := span isPathSeparator joined in
          if Nat.leb 2 (length slashes) then "\"%char :: behind else joined in
      win32_normalize joined'
  end.

End NodePath.

Definition path_sep (platform : string) : string :=
  if platform =? "win32" then "\" else "/".

(** [path.join(...parts)]: [path] is the win32 flavour on win32 and the
    posix flavour on every other platform. *)
Definition path_join (platform : string) (parts : list string) : string :=
  string_of_list_ascii
    ((if platform =? "win32" then NodePath.win32_join else NodePath.posix_join)
       (map list_ascii_of_string parts)).

Arguments path_join : simpl never.

(* ================================================================== *)
(** ** Regular expressions: [new RegExp(src)] and [re.test(s)] *)

(** [findByName] hands the string ['^' + namePattern + '$'] to the RegExp
    constructor.  The model covers the fragment of the pattern syntax built
    from literal characters, [.], identity escapes, the anchors [^] and [$],
    the greedy quantifiers [*], [+], [?] on single characters, and
    top-level alternation [|].  Groups, classes, braces, lazy quantifiers
    and class escapes are reported as [Unsupported]; for those sources the
    answer of the engine is taken from the world ([newRegExp]). *)
Module RegExp.

Inductive atom := AChar (c : ascii) | AAny.
Inductive quant := One | Opt | Star | Plus.
Inductive term :=
| TStart                      (* ^ *)
| TEnd                        (* $ *)
| TAtom (a : atom) (q : quant).

(** A pattern is a disjunction of alternatives, each a sequence of terms. *)
Definition regex := list (list term).

Inductive compiled :=
| Compiled (r : regex)
| Invalid (msg : string)      (* the constructor throws SyntaxError *)
| Unsupported.                (* outside the modelled fragment *)

(** SyntaxCharacter of the pattern grammar. *)
Definition is_syntax_char (c : ascii) : bool :=
  existsb (Ascii.eqb c)
    ["^"; "$"; "\"; "."; "*"; "+"; "?"; "("; ")"; "["; "]"; "{"; "}"; "|"]%char.

(** The identity escapes of the fragment: a syntax character or [/]. *)
Definition is_escapable (c : ascii) : bool :=
  is_syntax_char c || Ascii.eqb c "/".

Definition quant_of (c : ascii) : option quant :=
  if Ascii.eqb c "*" then Some Star
  else if Ascii.eqb c "+" then Some Plus
  else if Ascii.eqb c "?" then Some Opt
  else None.

(** The scanner reads the source left to right, one character at a
    time.  [cur] holds the terms of the alternative being read and [done]
    the finished alternatives, both reversed; [last] says what a
    quantifier character would apply to. *)
Inductive last_term :=
| NoAtom          (* start of an alternative, or behind an assertion *)
| Fresh           (* behind an atom that has no quantifier yet *)
| Quantified.     (* behind a quantifier: a [?] here would make it lazy *)

Record scanner := {
  cur : list term;
  done : list (list term);
  last : last_term;
  escaped : bool              (* the previous character was a lone [\] *)
}.

Definition scan0 : scanner :=
  {| cur := []; done := []; last := NoAtom; escaped := false |}.

Definition push (t : term) (l : last_term) (sc : scanner) : scanner :=
  {| cur := t :: cur sc; done := done sc; last := l; escaped := false |}.

Definition requantify (q : quant) (sc : scanner) : scanner :=
  match cur sc with
  | TAtom a _ :: rest =>
      {| cur := TAtom a q :: rest; done := done sc;
         last := Quantified; escaped := false |}
  | _ => sc
  end.

Inductive scanned :=
| Next (sc : scanner)
| Stop (c : compiled).

Definition scan_char (c : ascii) (sc : scanner) : scanned :=
  if escaped sc then
    if is_escapable c then Next (push (TAtom (AChar c) One) Fresh sc)
    else Stop Unsupported
  else if Ascii.eqb c "\" then
    Next {| cur := cur sc; done := done sc; last := last sc; escaped := true |}
  else if Ascii.eqb c "|" then
    Next {| cur := []; done := rev (cur sc) :: done sc;
            last := NoAtom; escaped := false |}
  else if Ascii.eqb c "^" then Next (push TStart NoAtom sc)
  else if Ascii.eqb c "$" then Next (push TEnd NoAtom sc)
  else if Ascii.eqb c "." then Next (push (TAtom AAny One) Fresh sc)
  else
    match quant_of c with
    | Some q =>
        match last sc with
        | Fresh => Next (requantify q sc)
        | Quantified =>
            if Ascii.eqb c "?" then Stop Unsupported
            else Stop (Invalid "Nothing to repeat")
        | NoAtom => Stop (Invalid "Nothing to repeat")
        end
    | None =>
        if is_syntax_char c then Stop Unsupported
        else Next (push (TAtom (AChar c) One) Fresh sc)
    end.

Fixpoint scan (cs : list ascii) (sc : scanner) : compiled :=
  match cs with
  | [] =>
      if escaped sc then Invalid "\ at end of pattern"
      else Compiled (rev (rev (cur sc) :: done sc))
  | c :: cs' =>
      match scan_char c sc with
      | Next sc' => scan cs' sc'
      | Stop r => r
      end
  end.

(** [new RegExp(src)] *)
Definition compile (src : string) : compiled :=
  scan (list_ascii_of_string src) scan0.

(** [.] matches everything but a line terminator. *)
Definition atom_ok (a : atom) (c : ascii) : bool :=
  match a with
  | AChar x => Ascii.eqb x c
  | AAny => negb (Ascii.eqb c "010" || Ascii.eqb c "013")
  end.

(** Can the terms [ts] match a prefix of [s]?  [at0] tells whether [s]
    starts at index 0 of the subject. *)
Fixpoint match_terms (ts : list term) : bool -> list ascii -> bool :=
  match ts with
  | [] => fun _ _ => true
  | TStart :: ts' => fun at0 s => at0 && match_terms ts' at0 s
  | TEnd :: ts' => fun at0 s =>
      match s with [] => match_terms ts' at0 s | _ => false end
  | TAtom a q :: ts' =>
      let one (k : list ascii -> bool) (s : list ascii) :=
        match s with
        | c :: s' => atom_ok a c && k s'
        | [] => false
        end in
      let many := fix many (s : list ascii) : bool :=
        match s with
        | c :: s' => atom_ok a c && (match_terms ts' false s' || many s')
        | [] => false
        end in
      match q with
      | One => fun _ s => one (match_terms ts' false) s
      | Opt => fun at0 s => one (match_terms ts' false) s || match_terms ts' at0 s
      | Plus => fun _ s => many s
      | Star => fun at0 s => many s || match_terms ts' at0 s
      end
  end.

Definition match_here (r : regex) (at0 : bool) (s : list ascii) : bool :=
  existsb (fun alt => match_terms alt at0 s) r.

(** The search of [test]: try index 0, then every later index. *)
Fixpoint search (r : regex) (at0 : bool) (s : list ascii) : bool :=
  match_here r at0 s ||
  match s with
  | [] => false
  | _ :: s' => search r false s'
  end.

(** [re.test(s)] for a regex without the global or sticky flag. *)
Definition test (r : regex) (s : string) : bool :=
  search r true (list_ascii_of_string s).

(** What "the whole title matches the pattern" means: some alternative
    of the pattern, started at index 0, ends exactly at the end of the
    subject.  This follows the specification's wording and is what the
    anchored test is compared with. *)
Definition whole_match (r : regex) (s : string) : bool :=
  existsb (fun alt => match_terms (alt ++ [TEnd]) true (list_ascii_of_string s)) r.

(** What [new RegExp(src)] gives: a regex, known by what its [test]
    answers, or the message of the SyntaxError thrown. *)
Inductive constructed :=
| Built (test : string -> bool)
| Refused (msg : string).

(** *** Notions used to state what the anchoring does *)

(** [^] in front of the first alternative, [$] behind the last. *)
Definition add_start (r : regex) : regex :=
  match r with
  | [] => []
  | alt :: rest => (TStart :: alt) :: rest
  end.

Fixpoint add_end (r : regex) : regex :=
  match r with
  | [] => []
  | [alt] => [(alt ++ [TEnd])%list]
  | alt :: rest => alt :: add_end rest
  end.

(** The scanner that has read [^] first, seen from the one that has not. *)
Inductive started : scanner -> scanner -> Prop :=
| started_first sc sc' :
    last sc' = last sc -> escaped sc' = escaped sc ->
    done sc = [] -> done sc' = [] -> cur sc' = (cur sc ++ [TStart])%list ->
    started sc sc'
| started_later sc sc' d first :
    last sc' = last sc -> escaped sc' = escaped sc ->
    done sc = (d ++ [first])%list -> done sc' = (d ++ [TStart :: first])%list ->
    cur sc' = cur sc ->
    started sc sc'.

(** A pattern of literal characters, and the alternative it denotes. *)
Definition literal (p : string) : bool :=
  forallb (fun c => negb (is_syntax_char c)) (list_ascii_of_string p).

Definition lit (cs : list ascii) : list term :=
  map (fun c => TAtom (AChar c) One) cs.

End RegExp.

(* ================================================================== *)
(** ** The operating system as the adapter sees it *)

(** A registry call returns or throws an error carrying a [code]. *)
Inductive reg (A : Type) : Type :=
| RegOk (a : A)
| RegThrow (code : string).
Arguments RegOk {A} a.
Arguments RegThrow {A} code.

(** The [winapi-bindings] module, restricted to the calls made here. *)
Record Winapi := {
  (** [RegGetValue('HKEY_LOCAL_MACHINE', '...\GalaxyClient\paths', 'client').value] *)
  RegGetValue_client : option string;
  (** [WithRegOpen('HKEY_LOCAL_MACHINE', REG_GOG_GAMES, cb)]: opens the key
      and runs the callback, or throws *)
  WithRegOpen_games : reg unit;
  (** [RegEnumKeys(hkey)]: the names of the subkeys *)
  RegEnumKeys : reg (list string);
  (** [RegGetValue(hkey, subkey, name).value], [None] when it throws *)
  RegGetValue : string -> string -> option string
}.

Record World := {
  (** [import('winapi-bindings')]: [None] when the import rejects *)
  winapi : option Winapi;
  (** [process.env.HOME] *)
  HOME : option string;
  (** [fs.existsSync] *)
  existsSync : string -> bool;
  (** [fs.stat(p)] resolves *)
  stat : string -> bool;
  (** [fs.readdir(p)], [None] when it rejects *)
  readdir : string -> option (list string);
  (** [fs.readFile(p, 'utf8')], [None] when it rejects *)
  readFile : string -> option string;
  (** [JSON.parse], [None] when it throws *)
  JSON_parse : string -> option value;
  (** [new RegExp(src)] for a source outside the fragment that [RegExp]
      models: what the engine makes of it *)
  regexpEngine : string -> RegExp.constructed
}.

(** [new RegExp(src)]: the fragment is compiled by the model, every other
    source by the engine. *)
Definition newRegExp (w : World) (src : string) : RegExp.constructed :=
  match RegExp.compile src with
  | RegExp.Compiled re => RegExp.Built (RegExp.test re)
  | RegExp.Invalid msg => RegExp.Refused msg
  | RegExp.Unsupported => regexpEngine w src
  end.

(** [fs.stat] rejects an argument that is not a path. *)
Definition stat_value (w : World) (v : value) : bool :=
  match v with
  | VStr p => stat w p
  | _ => false
  end.

(** [process.env.HOME || ''] *)
Definition homeDir (w : World) : string :=
  match HOME w with
  | Some h => h
  | None => ""
  end.

(* ================================================================== *)
(** ** Entries, execution plans and the instance state *)

Record GameStoreEntry := {
  appid : value;
  name : value;
  gamePath : value;
  gameStoreId : string
}.

Record ExecInfo := {
  execPath : string;
  arguments : list string
}.

(** A promise object: its identity and what it settles with. *)
Record Promise (A : Type) := {
  pid : nat;
  settled : outcome A
}.

Record State := {
  (** [process.platform], fixed for the life of the process *)
  processPlatform : string;
  (** [this.mClientPath]: [None] is [undefined], [Some p] a promise
      resolved with [p] *)
  mClientPath : option string;
  (** on win32 the constructor only starts the probe; it settles later *)
  probePending : bool;
  (** [this.mCache] *)
  mCache : option (Promise (list GameStoreEntry));
  (** allocator of promise identities *)
  nextPromise : nat;
  (** how many times [getGameEntries] has been invoked *)
  enumerations : nat;
  (** what went to the logging collaborator, oldest first *)
  logged : list LogEntry
}.

Definition with_logs (ls : list LogEntry) (st : State) : State :=
  {| processPlatform := processPlatform st;
     mClientPath := mClientPath st;
     probePending := probePending st;
     mCache := mCache st;
     nextPromise := nextPromise st;
     enumerations := enumerations st;
     logged := logged st ++ ls |}.

Definition with_cache (p : Promise (list GameStoreEntry)) (st : State) : State :=
  {| processPlatform := processPlatform st;
     mClientPath := mClientPath st;
     probePending := probePending st;
     mCache := Some p;
     nextPromise := nextPromise st;
     enumerations := enumerations st;
     logged := logged st |}.

(* ================================================================== *)
(** ** Discovery probe: the constructor *)

Definition standardPath : string := "/Applications/GOG Galaxy.app".

Definition userAppsPath (platform : string) (w : World) : string :=
  path_join platform [homeDir w; "Applications"; "GOG Galaxy.app"].

Definition fresh (platform : string) (client : option string) (pending : bool)
           (ls : list LogEntry) : State :=
  {| processPlatform := platform;
     mClientPath := client;
     probePending := pending;
     mCache := None;
     nextPromise := 0;
     enumerations := 0;
     logged := ls |}.

(** [new GoGLauncher()].  On win32 the registry is read in the callback
    of a dynamic import, so the constructor returns with [mClientPath]
    still unset. *)
Definition constructor (platform : string) (w : World) : State :=
  if platform =? "win32" then fresh platform None true []
  else if platform =? "darwin" then
    if existsSync w standardPath then fresh platform (Some standardPath) false []
    else if existsSync w (userAppsPath platform w) then
      fresh platform (Some (userAppsPath platform w)) false []
    else fresh platform None false [log info "gog not found"]
  else fresh platform None false [log info "gog not found"].

(** The import started by the constructor settles: its [then] callback
    reads the registry and assigns [mClientPath]; its [catch] callback logs
    and assigns [undefined]. *)
Definition settleProbe (w : World) (st : State) : State :=
  if probePending st then
    let client :=
      match winapi w with
      | Some api => RegGetValue_client api
      | None => None
      end in
    {| processPlatform := processPlatform st;
       mClientPath := client;
       probePending := false;
       mCache := mCache st;
       nextPromise := nextPromise st;
       enumerations := enumerations st;
       logged := logged st ++
                 match client with
                 | Some _ => []
                 | None => [log info "gog not found"]
                 end |}
  else st.

(* ================================================================== *)
(** ** Game enumerator *)

(** One subkey of the Games key: three values are read in the order
    [gameID], [path], [startMenu]; a throw from any of them is caught,
    logged, and the subkey yields [undefined]. *)
Definition windowsEntry (api : Winapi) (key : string) : option GameStoreEntry :=
  match RegGetValue api key "gameID" with
  | Some id =>
      match RegGetValue api key "path" with
      | Some pth =>
          match RegGetValue api key "startMenu" with
          | Some nm =>
              Some {| appid := VStr id; name := VStr nm; gamePath := VStr pth;
                      gameStoreId := STORE_ID |}
          | None => None
          end
      | None => None
      end
  | None => None
  end.

(** [keys.map(...).filter(entry => !!entry)], with the log lines of the
    subkeys that failed. *)
Fixpoint windowsEntries (api : Winapi) (keys : list string)
  : list GameStoreEntry * list LogEntry :=
  match keys with
  | [] => ([], [])
  | key :: keys' =>
      let (es, ls) := windowsEntries api keys' in
      match windowsEntry api key with
      | Some e => (e :: es, ls)
      | None => (es, log error "gamestore-gog: failed to create game entry" :: ls)
      end
  end.

(** What the [catch] around [WithRegOpen] does with a thrown error. *)
Definition onRegistryThrow (code : string)
  : outcome (list GameStoreEntry) * list LogEntry :=
  if code =? "ENOENT" then (Resolved [], []) else (Rejected (RegistryError code), []).

(** The promise built inside [getGameEntriesWindows], before the final
    [.catch(() => Promise.resolve([]))]. *)
Definition registryScan (api : Winapi)
  : outcome (list GameStoreEntry) * list LogEntry :=
  match WithRegOpen_games api with
  | RegThrow code => onRegistryThrow code
  | RegOk _ =>
      match RegEnumKeys api with
      | RegThrow code => onRegistryThrow code
      | RegOk keys =>
          let (es, ls) := windowsEntries api keys in (Resolved es, ls)
      end
  end.

(** [p.catch(() => Promise.resolve([]))] *)
Definition catchEmpty (o : outcome (list GameStoreEntry))
  : outcome (list GameStoreEntry) :=
  match o with
  | Resolved es => Resolved es
  | Rejected _ | Threw _ => Resolved []
  end.

Definition getGameEntriesWindows (w : World) (client : option string)
  : outcome (list GameStoreEntry) * list LogEntry :=
  match client with
  | Some _ =>
      match winapi w with
      | Some api => let (o, ls) := registryScan api in (catchEmpty o, ls)
      | None => (catchEmpty (Rejected (Error "Cannot find module 'winapi-bindings'")), [])
      end
  | None => (Resolved [], [])
  end.

(** The record built from one parsed [gameinfo]; [None] is a TypeError,
    of reading a property of [null] or of the template literal
    [`GOG Game ${appid}`], which is evaluated only when neither [name] nor
    [title] is truthy.  Both are caught by the same [catch]. *)
Record GameInfo := {
  gi_appid : value;
  gi_name : value;
  gi_gamePath : value
}.

Definition readGameInfo (gameInfo : value) (gameId : string) : option GameInfo :=
  match getProp gameInfo "gameId", getProp gameInfo "name",
        getProp gameInfo "title", getProp gameInfo "installDirectory" with
  | Some gid, Some nm, Some title, Some dir =>
      let appid := js_or gid (VStr gameId) in
      if truthy nm then
        Some {| gi_appid := appid; gi_name := nm; gi_gamePath := dir |}
      else if truthy title then
        Some {| gi_appid := appid; gi_name := title; gi_gamePath := dir |}
      else
        match ToString appid with
        | Some text =>
            Some {| gi_appid := appid; gi_name := VStr ("GOG Game " ++ text);
                    gi_gamePath := dir |}
        | None => None
        end
  | _, _, _, _ => None
  end.

(** The body of the loop over the game directories: what the candidate
    [gameId] appends to [gameEntries] and what it logs. *)
Definition macCandidate (platform : string) (w : World) (gamesPath gameId : string)
  : list GameStoreEntry * list LogEntry :=
  let gameInfoPath := path_join platform [gamesPath; gameId; "gameinfo"] in
  match readFile w gameInfoPath with
  | None => ([], [log debug "Failed to read GOG game info file"])
  | Some gameInfoData =>
      match JSON_parse w gameInfoData with
      | None => ([], [log error "Failed to parse GOG game info"])
      | Some gameInfo =>
          match readGameInfo gameInfo gameId with
          | None => ([], [log error "Failed to parse GOG game info"])
          | Some gi =>
              if truthy (gi_gamePath gi) then
                if stat_value w (gi_gamePath gi) then
                  ([{| appid := gi_appid gi; name := gi_name gi;
                       gamePath := gi_gamePath gi; gameStoreId := STORE_ID |}], [])
                else ([], [log debug "GOG game directory not found"])
              else ([], [])
          end
      end
  end.

Fixpoint macCandidates (platform : string) (w : World) (gamesPath : string)
         (gameDirs : list string) : list GameStoreEntry * list LogEntry :=
  match gameDirs with
  | [] => ([], [])
  | gameId :: rest =>
      let (es1, ls1) := macCandidate platform w gamesPath gameId in
      let (es2, ls2) := macCandidates platform w gamesPath rest in
      ((es1 ++ es2)%list, (ls1 ++ ls2)%list)
  end.

Definition gogDataPath (platform : string) (w : World) : string :=
  path_join platform [homeDir w; "Library"; "Application Support"; "GOG.com"; "Galaxy"].

Definition gamesPath (platform : string) (w : World) : string :=
  path_join platform [gogDataPath platform w; "games"].

Definition getGameEntriesMacOS (platform : string) (w : World)
  : outcome (list GameStoreEntry) * list LogEntry :=
  if stat w (gogDataPath platform w) then
    match readdir w (gamesPath platform w) with
    | None => (Resolved [], [])
    | Some gameDirs =>
        let (es, ls) := macCandidates platform w (gamesPath platform w) gameDirs in
        (Resolved es, ls)
    end
  else (Resolved [], []).

(** The platform switch of [getGameEntries], as a function of what it reads. *)
Definition enumerate (platform : string) (client : option string) (w : World)
  : outcome (list GameStoreEntry) * list LogEntry :=
  if platform =? "win32" then getGameEntriesWindows w client
  else if platform =? "darwin" then getGameEntriesMacOS platform w
  else (Resolved [], []).

(** [this.getGameEntries()]: one enumeration, one new promise. *)
Definition getGameEntries (w : World) (st : State)
  : Promise (list GameStoreEntry) * State :=
  let (o, ls) := enumerate (processPlatform st) (mClientPath st) w in
  ({| pid := nextPromise st; settled := o |},
   {| processPlatform := processPlatform st;
      mClientPath := mClientPath st;
      probePending := probePending st;
      mCache := mCache st;
      nextPromise := S (nextPromise st);
      enumerations := S (enumerations st);
      logged := (logged st ++ ls)%list |}).

(* ================================================================== *)
(** ** Entry cache and lookup service *)

(** [p.then(k)]: a rejection skips [k]; a throw inside [k] rejects. *)
Definition andThen {A B : Type} (p : outcome A) (k : A -> outcome B) : outcome B :=
  match p with
  | Resolved a =>
      match k a with
      | Threw e => Rejected e
      | r => r
      end
  | Rejected e => Rejected e
  | Threw e => Threw e
  end.

(** [allGames()]: a promise object is truthy whatever it resolves to, so
    [!this.mCache] holds only while the field is unset. *)
Definition allGames (w : World) (st : State)
  : Promise (list GameStoreEntry) * State :=
  match mCache st with
  | Some p => (p, st)
  | None =>
      let (p, st') := getGameEntries w st in
      (p, with_cache p st')
  end.

(** [reloadGames()]: the executor assigns the new promise and resolves
    with no value. *)
Definition reloadGames (w : World) (st : State) : outcome unit * State :=
  let (p, st') := getGameEntries w st in
  (Resolved tt, with_cache p st').

Definition entryOrNotFound (query : string) (found : option GameStoreEntry)
  : outcome GameStoreEntry :=
  match found with
  | None => Rejected (GameEntryNotFound query STORE_ID)
  | Some entry => Resolved entry
  end.

(** [entries.find(f)] for a callback that may throw: the entries are
    tried in order up to the first for which [f] answers [true]; a throw
    on the way ends the search. *)
Fixpoint findOrThrow (A : Type) (f : A -> option bool) (entries : list A)
  : outcome (option A) :=
  match entries with
  | [] => Resolved None
  | entry :: rest =>
      match f entry with
      | None => Threw notPrimitive
      | Some true => Resolved (Some entry)
      | Some false => findOrThrow f rest
      end
  end.

(** [re.test(entry.name)]: the name is converted to a string first. *)
Definition testName (test : string -> bool) (entry : GameStoreEntry) : option bool :=
  option_map test (ToString (name entry)).

(** [findByName(namePattern)].  The RegExp is built before [allGames] is
    called, so an invalid pattern throws and leaves the state alone. *)
Definition findByName (namePattern : string) (w : World) (st : State)
  : outcome GameStoreEntry * State :=
  match newRegExp w ("^" ++ namePattern ++ "$") with
  | RegExp.Refused msg => (Threw (SyntaxError msg), st)
  | RegExp.Built test =>
      let (p, st') := allGames w st in
      (andThen
         (andThen (settled p) (fun entries => findOrThrow (testName test) entries))
         (fun entry => entryOrNotFound namePattern entry),
       st')
  end.

(** The argument of [findByAppId]: [string | string[]]. *)
Inductive AppIdArg :=
| OneId (appId : string)
| ManyIds (appIds : list string).

Definition matcher (arg : AppIdArg) (entry : GameStoreEntry) : bool :=
  match arg with
  | ManyIds ids => includes ids (appid entry)
  | OneId a => strict_eq_str a (appid entry)
  end.

(** [Array.isArray(appId) ? appId.join(', ') : appId] *)
Definition queryText (arg : AppIdArg) : string :=
  match arg with
  | ManyIds ids => String.concat ", " ids
  | OneId a => a
  end.

Definition findByAppId (arg : AppIdArg) (w : World) (st : State)
  : outcome GameStoreEntry * State :=
  let (p, st') := allGames w st in
  (andThen (settled p) (fun entries =>
     entryOrNotFound (queryText arg) (find (matcher arg) entries)),
   st').

(** The double-quote character of the [path="..."] argument. *)
Definition dquote : string := String "034"%char EmptyString.

(** The callback on [mClientPath]: the plan for [gameEntry] once the
    promise has yielded [basePath].  The template literals convert the
    appid and the game path to strings, which throws for a value that has
    no primitive. *)
Definition execPlan (platform basePath : string) (gameEntry : GameStoreEntry)
  : outcome ExecInfo :=
  match ToString (appid gameEntry), ToString (gamePath gameEntry) with
  | Some id, Some dir =>
      if platform =? "darwin" then
        Resolved
          {| execPath := basePath;
             arguments := ["/gameId=" ++ id;
                           "/command=runGame";
                           "path=" ++ dquote ++ dir ++ dquote] |}
      else
        Resolved
          {| execPath := path_join platform [basePath; GOG_EXEC];
             arguments := ["/command=runGame";
                           "/gameId=" ++ id;
                           "path=" ++ dquote ++ dir ++ dquote] |}
  | _, _ => Threw notPrimitive
  end.

(** [new Error('GOG Galaxy not installed')] *)
Definition notInstalled : JsError := Error "GOG Galaxy not installed".

(** [getExecInfo(appId)]: the entry is looked up first; only when it is
    found is [mClientPath] consulted. *)
Definition getExecInfo (appId : string) (w : World) (st : State)
  : outcome ExecInfo * State :=
  let (p, st') := allGames w st in
  (andThen (settled p) (fun entries =>
     match find (fun entry => strict_eq_str appId (appid entry)) entries with
     | None => Rejected (GameEntryNotFound appId STORE_ID)
     | Some gameEntry =>
         match mClientPath st' with
         | None => Rejected notInstalled
         | Some basePath =>
             andThen (Resolved basePath)
               (fun basePath => execPlan (processPlatform st') basePath gameEntry)
         end
     end),
   st').

(** [getGameStorePath()]: [Resolved None] is a promise resolved with
    [undefined]. *)
Definition getGameStorePath (st : State) : outcome (option string) :=
  match mClientPath st with
  | Some basePath =>
      if processPlatform st =? "darwin" then Resolved (Some basePath)
      else Resolved (Some (path_join (processPlatform st) [basePath; "GalaxyClient.exe"]))
  | None => Resolved None
  end.

(** [fileExists(filePath)]: [stat] resolved gives [true], rejected [false]. *)
Definition fileExists (w : World) (filePath : string) : bool := stat w filePath.

(** [identifyGame(gamePath, fallback)].  The fallback is the caller's: it
    may throw, reject, or resolve with a boolean. *)
Definition identifyGame (gamePath : string) (fallback : string -> outcome bool)
           (w : World) (st : State) : outcome bool * State :=
  let custom := fileExists w (path_join (processPlatform st) [gamePath; "gog.ico"]) in
  match fallback gamePath with
  | Threw e => (Threw e, st)
  | Rejected e => (Rejected e, st)
  | Resolved fb =>
      (Resolved (custom || fb),
       if Bool.eqb custom fb then st
       else with_logs [log warn "(gog) game identification inconclusive"] st)
  end.

(* ================================================================== *)
(** ** The life of an instance *)

(** What can happen to an instance after its construction: the calls of
    the public interface and, on win32, the settling of the probe. *)
Inductive Op :=
| OpSettleProbe
| OpAllGames
| OpReloadGames
| OpFindByName (namePattern : string)
| OpFindByAppId (arg : AppIdArg)
| OpGetExecInfo (appId : string)
| OpGetGameStorePath
| OpIdentifyGame (gamePath : string) (fallback : string -> outcome bool).

Definition isReload (o : Op) : bool :=
  match o with
  | OpReloadGames => true
  | _ => false
  end.

(** The state an operation leaves behind, the world being [w] when it
    runs. *)
Definition run (w : World) (o : Op) (st : State) : State :=
  match o with
  | OpSettleProbe => settleProbe w st
  | OpAllGames => snd (allGames w st)
  | OpReloadGames => snd (reloadGames w st)
  | OpFindByName pat => snd (findByName pat w st)
  | OpFindByAppId arg => snd (findByAppId arg w st)
  | OpGetExecInfo appId => snd (getExecInfo appId w st)
  | OpGetGameStorePath => st
  | OpIdentifyGame gp fb => snd (identifyGame gp fb w st)
  end.

(** A history: each operation with the world it met. *)
Fixpoint runAll (h : list (World * Op)) (st : State) : State :=
  match h with
  | [] => st
  | (w, o) :: h' => runAll h' (run w o st)
  end.

(** The states an instance can be in. *)
Inductive reachable : State -> Prop :=
| reach_new (platform : string) (w : World) :
    reachable (constructor platform w)
| reach_run (w : World) (o : Op) (st : State) :
    reachable st -> reachable (run w o st).

(** The snapshot a promise of [allGames] resolves with. *)
Definition snapshot (p : Promise (list GameStoreEntry)) : list GameStoreEntry :=
  match settled p with
  | Resolved es => es
  | _ => []
  end.

(* ================================================================== *)
(** ** Concrete worlds *)

(** The regex engine of the concrete worlds: beyond the modelled fragment
    it knows the source [^Test Game [12]$], a character class behind
    literal text, and nothing else. *)
Definition classEngine (src : string) : RegExp.constructed :=
  if src =? "^Test Game [12]$" then
    RegExp.Built (fun title => (title =? "Test Game 1") || (title =? "Test Game 2"))
  else RegExp.Refused "Invalid regular expression".

(** A machine with nothing on it. *)
Definition bareWorld : World :=
  {| winapi := None;
     HOME := None;
     existsSync := fun _ => false;
     stat := fun _ => false;
     readdir := fun _ => None;
     readFile := fun _ => None;
     JSON_parse := fun _ => None;
     regexpEngine := classEngine |}.

(** A line of the Games key: subkey, [gameID], [path], [startMenu]. *)
Record RegGame := {
  rg_key : string;
  rg_gameID : string;
  rg_path : string;
  rg_startMenu : string
}.

Fixpoint regValue (games : list RegGame) (key valueName : string) : option string :=
  match games with
  | [] => None
  | g :: rest =>
      if rg_key g =? key then
        if valueName =? "gameID" then Some (rg_gameID g)
        else if valueName =? "path" then Some (rg_path g)
        else if valueName =? "startMenu" then Some (rg_startMenu g)
        else None
      else regValue rest key valueName
  end.

(** A Windows machine whose registry names the client at [client] and
    lists [games]. *)
Definition windowsWorld (client : string) (games : list RegGame) : World :=
  {| winapi := Some {| RegGetValue_client := Some client;
                       WithRegOpen_games := RegOk tt;
                       RegEnumKeys := RegOk (map rg_key games);
                       RegGetValue := regValue games |};
     HOME := None;
     existsSync := fun _ => false;
     stat := fun _ => false;
     readdir := fun _ => None;
     readFile := fun _ => None;
     JSON_parse := fun _ => None;
     regexpEngine := classEngine |}.

Definition fooWorld : World :=
  windowsWorld "C:\GOG Galaxy"
    [{| rg_key := "9999"; rg_gameID := "9999";
        rg_path := "C:\Games\Foo"; rg_startMenu := "Foo" |}].

Definition testGame10World : World :=
  windowsWorld "C:\GOG Galaxy"
    [{| rg_key := "10"; rg_gameID := "10";
        rg_path := "C:\Games\Test Game 10"; rg_startMenu := "Test Game 10" |};
     {| rg_key := "1"; rg_gameID := "1";
        rg_path := "C:\Games\Test Game 1"; rg_startMenu := "Test Game 1" |}].

(** The text [JSON.stringify] gives for the metadata of the test suite. *)
Definition quoted (s : string) : string := dquote ++ s ++ dquote.

Definition gameinfoText (id title dir : string) : string :=
  "{" ++ quoted "gameId" ++ ":" ++ quoted id ++ ","
      ++ quoted "name" ++ ":" ++ quoted title ++ ","
      ++ quoted "installDirectory" ++ ":" ++ quoted dir ++ "}".

Definition gameinfoValue (id title dir : string) : value :=
  VObj [("gameId", VStr id); ("name", VStr title); ("installDirectory", VStr dir)].

Definition macHome : string := "/Users/tester".
Definition macData : string := "/Users/tester/Library/Application Support/GOG.com/Galaxy".
Definition macGames : string := "/Users/tester/Library/Application Support/GOG.com/Galaxy/games".

(** A Mac whose data directory holds the candidates [12345] and [67890],
    as in the test suite; [installed] says which paths exist besides the
    data directory, [apps] which application bundles exist.  Its parser
    knows the two metadata texts and the records they denote. *)
Definition macWorld (installed apps : list string) : World :=
  {| winapi := None;
     HOME := Some macHome;
     existsSync := fun p => existsb (String.eqb p) apps;
     stat := fun p => (p =? macData) || existsb (String.eqb p) installed;
     readdir := fun p => if p =? macGames then Some ["12345"; "67890"] else None;
     readFile := fun p =>
       if p =? macGames ++ "/12345/gameinfo" then
         Some (gameinfoText "12345" "Test Game 1" "/Games/Test Game 1")
       else if p =? macGames ++ "/67890/gameinfo" then
         Some (gameinfoText "67890" "Test Game 2" "/Games/Test Game 2")
       else None;
     JSON_parse := fun s =>
       if s =? gameinfoText "12345" "Test Game 1" "/Games/Test Game 1" then
         Some (gameinfoValue "12345" "Test Game 1" "/Games/Test Game 1")
       else if s =? gameinfoText "67890" "Test Game 2" "/Games/Test Game 2" then
         Some (gameinfoValue "67890" "Test Game 2" "/Games/Test Game 2")
       else None;
     regexpEngine := classEngine |}.

Definition twoGamesMac : World :=
  macWorld ["/Games/Test Game 1"; "/Games/Test Game 2"] [].

(** The same Mac after the install directory of [67890] has gone. *)
Definition oneGameMac : World := macWorld ["/Games/Test Game 1"] [].

(** An instance on [twoGamesMac] after its first [allGames()]. *)
Definition macCached : State :=
  run twoGamesMac OpAllGames (constructor "darwin" twoGamesMac).

(** An instance on [fooWorld] after the probe has settled and the cache
    has been filled. *)
Definition fooCached : State :=
  runAll [(fooWorld, OpSettleProbe); (fooWorld, OpAllGames)]
         (constructor "win32" fooWorld).

(** An instance on [testGame10World] with the probe settled and the cache
    filled: the snapshot lists [Test Game 10], then [Test Game 1]. *)
Definition testGame10Cached : State :=
  runAll [(testGame10World, OpSettleProbe); (testGame10World, OpAllGames)]
         (constructor "win32" testGame10World).

Definition testGame10 : GameStoreEntry :=
  {| appid := VStr "10"; name := VStr "Test Game 10";
     gamePath := VStr "C:\Games\Test Game 10"; gameStoreId := "gog" |}.

Definition testGame1 : GameStoreEntry :=
  {| appid := VStr "12345"; name := VStr "Test Game 1";
     gamePath := VStr "/Games/Test Game 1"; gameStoreId := "gog" |}.

Definition testGame2 : GameStoreEntry :=
  {| appid := VStr "67890"; name := VStr "Test Game 2";
     gamePath := VStr "/Games/Test Game 2"; gameStoreId := "gog" |}.


(* ================================================================== *)
(** ** The methods outside the lookup interface *)

(** [fs.stat(p)] as [findMacOSGOGPath] uses it: [None] when the promise
    rejects, otherwise what [stat.isDirectory()] answers. *)
Definition statKind (w : World) (isDirectory : string -> bool) (p : string)
  : option bool :=
  if stat w p then Some (isDirectory p) else None.

(** [new Error('GOG Galaxy not found on macOS')] *)
Definition notFoundOnMac : JsError := Error "GOG Galaxy not found on macOS".

(** [findMacOSGOGPath()] of src/index.ts: two [try] blocks in sequence,
    each returning from inside when the path is a directory and falling
    through otherwise, then the rejection. *)
Definition findMacOSGOGPath (platform : string) (w : World)
           (isDirectory : string -> bool) : outcome string :=
  match statKind w isDirectory standardPath with
  | Some true => Resolved standardPath
  | _ =>
      match statKind w isDirectory (userAppsPath platform w) with
      | Some true => Resolved (userAppsPath platform w)
      | _ => Rejected notFoundOnMac
      end
  end.

(** [p.catch(h)]: only a rejection reaches [h]; a throw inside [h]
    rejects. *)
Definition catchWith {A : Type} (p : outcome A) (h : JsError -> outcome A)
  : outcome A :=
  match p with
  | Rejected e =>
      match h e with
      | Threw e' => Rejected e'
      | r => r
      end
  | r => r
  end.

(** [Bluebird.resolve(fs.stat(p))]; [statError] is whatever [fs.stat]
    rejects with. *)
Definition statPromise (w : World) (isDirectory : string -> bool)
           (statError : JsError) (p : string) : outcome bool :=
  match statKind w isDirectory p with
  | Some isDir => Resolved isDir
  | None => Rejected statError
  end.

(** [findMacOSGOGPath()] of the Bluebird variant of the file: a chain of
    [then] and [catch]. *)
Definition findMacOSGOGPath_chain (platform : string) (w : World)
           (isDirectory : string -> bool) (statError : JsError) : outcome string :=
  catchWith
    (catchWith
       (andThen (statPromise w isDirectory statError standardPath)
          (fun isDir => if isDir then Resolved standardPath
                        else Rejected (Error "not found")))
       (fun _ =>
          andThen (statPromise w isDirectory statError (userAppsPath platform w))
            (fun isDir => if isDir then Resolved (userAppsPath platform w)
                          else Rejected (Error "not found"))))
    (fun _ => Rejected notFoundOnMac).

(** The call [api.runExecutable(executable, args, options)]. *)
Record RunRequest := {
  run_executable : string;
  run_arguments : list string;
  run_cwd : string;
  run_suggestDeploy : bool;
  run_shell : bool
}.

(** How [launchGame] ends: as a promise, or with the TypeError of reading
    [runExecutable] off an [api] that was not passed. *)
Inductive LaunchOutcome :=
| LaunchSettled (o : outcome unit)
| LaunchTypeError.

(** [launchGame(appInfo, api)].  [dirname] is [path.dirname]; the result
    lists the calls made to [api.runExecutable]. *)
Definition launchGame (dirname : string -> string)
           (api : option (RunRequest -> outcome unit))
           (appInfo : string) (w : World) (st : State)
  : LaunchOutcome * list RunRequest * State :=
  let (r, st') := getExecInfo appInfo w st in
  match r with
  | Resolved execInfo =>
      match api with
      | None => (LaunchTypeError, [], st')
      | Some runExecutable =>
          let request :=
            {| run_executable := execPath execInfo;
               run_arguments := arguments execInfo;
               run_cwd := dirname (execPath execInfo);
               run_suggestDeploy := true;
               run_shell := true |} in
          (LaunchSettled (andThen (Resolved tt) (fun _ => runExecutable request)),
           [request], st')
      end
  | Rejected e => (LaunchSettled (Rejected e), [], st')
  | Threw e => (LaunchSettled (Threw e), [], st')
  end.

(** How many [reloadGames()] a history holds. *)
Definition countReloads (h : list (World * Op)) : nat :=
  length (filter (fun wo => isReload (snd wo)) h).

(** A Mac with the application bundle in [/Applications] and the data
    directory of the test suite. *)
Definition macWithClient : World :=
  macWorld ["/Games/Test Game 1"; "/Games/Test Game 2"] ["/Applications/GOG Galaxy.app"].

(** An instance on [macWithClient] after its first [allGames()]. *)
Definition macClientCached : State :=
  run macWithClient OpAllGames (constructor "darwin" macWithClient).

(** A Windows machine on which the Games key exists but may not be
    opened. *)
Definition lockedWorld : World :=
  {| winapi := Some {| RegGetValue_client := Some "C:\GOG Galaxy";
                       WithRegOpen_games := RegThrow "EACCES";
                       RegEnumKeys := RegOk [];
                       RegGetValue := fun _ _ => None |};
     HOME := None;
     existsSync := fun _ => false;
     stat := fun _ => false;
     readdir := fun _ => None;
     readFile := fun _ => None;
     JSON_parse := fun _ => None;
     regexpEngine := classEngine |}.

(** A Mac whose only candidate, [777], has metadata that names nothing
    but a title and the install directory [/Games/Seven], which exists. *)
Definition titleOnlyMac : World :=
  {| winapi := None;
     HOME := Some macHome;
     existsSync := fun _ => false;
     stat := fun p => (p =? macData) || (p =? "/Games/Seven");
     readdir := fun p => if p =? macGames then Some ["777"] else None;
     readFile := fun p => if p =? macGames ++ "/777/gameinfo" then Some "seven" else None;
     JSON_parse := fun s =>
       if s =? "seven" then
         Some (VObj [("title", VStr "Seven"); ("installDirectory", VStr "/Games/Seven")])
       else None;
     regexpEngine := classEngine |}.

(** A Mac whose only candidate names no title and has an object with a
    [toString] entry for its [gameId], as in
    [{gameId: {toString: 1}, installDirectory: '/Games/Seven'}]. *)
Definition opaqueIdMac : World :=
  {| winapi := None;
     HOME := Some macHome;
     existsSync := fun _ => false;
     stat := fun p => (p =? macData) || (p =? "/Games/Seven");
     readdir := fun p => if p =? macGames then Some ["777"] else None;
     readFile := fun p => if p =? macGames ++ "/777/gameinfo" then Some "opaque" else None;
     JSON_parse := fun s =>
       if s =? "opaque" then
         Some (VObj [("gameId", VObj [("toString", VNum "1")]);
                     ("installDirectory", VStr "/Games/Seven")])
       else None;
     regexpEngine := classEngine |}.

(** A Mac whose only candidate has an object with a [toString] entry for
    its [name], as in [{name: {toString: 1}, installDirectory:
    '/Games/Seven'}].  The object is truthy, so it becomes the name of the
    entry. *)
Definition opaqueNameMac : World :=
  {| winapi := None;
     HOME := Some macHome;
     existsSync := fun _ => false;
     stat := fun p => (p =? macData) || (p =? "/Games/Seven");
     readdir := fun p => if p =? macGames then Some ["777"] else None;
     readFile := fun p => if p =? macGames ++ "/777/gameinfo" then Some "opaque" else None;
     JSON_parse := fun s =>
       if s =? "opaque" then
         Some (VObj [("name", VObj [("toString", VNum "1")]);
                     ("installDirectory", VStr "/Games/Seven")])
       else None;
     regexpEngine := classEngine |}.

Definition opaqueEntry : GameStoreEntry :=
  {| appid := VStr "777"; name := VObj [("toString", VNum "1")];
     gamePath := VStr "/Games/Seven"; gameStoreId := "gog" |}.

(** An instance on [opaqueNameMac] after its first [allGames()]. *)
Definition opaqueNameCached : State :=
  run opaqueNameMac OpAllGames (constructor "darwin" opaqueNameMac).

(** The Mac of the test suite with the marker file in the install
    directory of [12345]. *)
Definition markedMac : World :=
  macWorld ["/Games/Test Game 1"; "/Games/Test Game 1/gog.ico"] [].

(** Three fallbacks a caller may supply: one that resolves with a fixed
    answer, one whose promise rejects, one that throws when called. *)
Definition answering (answer : bool) (gamePath : string) : outcome bool :=
  Resolved answer.

Definition rejectingFallback (gamePath : string) : outcome bool :=
  Rejected (Error "not a game").

Definition throwingFallback (gamePath : string) : outcome bool :=
  Threw (Error "not a game").

(** Notions used to state what the scanner does with literal text. *)
Module RegExpNotions.
Import RegExp.

(** The scanner after a run of literal characters. *)
Definition after_literal (cs : list ascii) (sc : scanner) : scanner :=
  match cs with
  | [] => sc
  | _ => {| cur := (rev (lit cs) ++ cur sc)%list; done := done sc;
            last := Fresh; escaped := false |}
  end.

End RegExpNotions.

(** No operation of a history is a settle event. *)
Definition noSettle (h : list (World * Op)) : bool :=
  forallb (fun wo => match snd wo with OpSettleProbe => false | _ => true end) h.

(** What the probe reads when it settles in world [w]. *)
Definition registryClient (w : World) : option string :=
  match winapi w with
  | Some api => RegGetValue_client api
  | None => None
  end.

(** What the constructor finds on darwin in world [w]. *)
Definition macClient (w : World) : option string :=
  if existsSync w standardPath then Some standardPath
  else if existsSync w (userAppsPath "darwin" w) then Some (userAppsPath "darwin" w)
  else None.

(** A Mac on which [/Applications/GOG Galaxy.app] exists as a plain file
    and the bundle sits in the user's own Applications folder. *)
Definition userBundleMac : World :=
  {| winapi := None;
     HOME := Some macHome;
     existsSync := fun p => (p =? "/Applications/GOG Galaxy.app")
                            || (p =? "/Users/tester/Applications/GOG Galaxy.app");
     stat := fun p => (p =? "/Applications/GOG Galaxy.app")
                      || (p =? "/Users/tester/Applications/GOG Galaxy.app");
     readdir := fun _ => None;
     readFile := fun _ => None;
     JSON_parse := fun _ => None;
     regexpEngine := classEngine |}.

(* ================================================================== *)
(** ** Vocabulary of the properties *)

Unset Implicit Arguments.

(** An entry that names this store as its origin. *)
Definition fromStore (e : GameStoreEntry) : Prop := gameStoreId e = STORE_ID.

(** The entries a settled enumeration carries. *)
Definition entriesOf (o : outcome (list GameStoreEntry)) : list GameStoreEntry :=
  match o with
  | Resolved es => es
  | _ => []
  end.

(** A platform that is neither of the two supported ones. *)
Definition unsupported (platform : string) : Prop :=
  platform <> "win32" /\ platform <> "darwin".

(** What the constructor establishes and every operation keeps: a
    memoized promise is resolved, with entries of this store, and is older
    than the next promise; it is empty on an unsupported platform and on
    win32 as long as no client path is known; the probe is pending only on
    win32 and only before a path is known. *)
Record inv (st : State) : Prop := {
  inv_cache : forall p, mCache st = Some p ->
    exists es, settled p = Resolved es /\ Forall fromStore es /\
               pid p < nextPromise st /\
               (unsupported (processPlatform st) -> es = []) /\
               (processPlatform st = "win32" -> mClientPath st = None -> es = []);
  inv_pending : probePending st = true ->
    mClientPath st = None /\ processPlatform st = "win32";
  inv_client : unsupported (processPlatform st) -> mClientPath st = None
}.

(** What the claim calls a match: equality with the one id, membership
    in the collection of ids. *)
Definition matchesId (arg : AppIdArg) (e : GameStoreEntry) : Prop :=
  match arg with
  | OneId a => appid e = VStr a
  | ManyIds ids => exists a, In a ids /\ appid e = VStr a
  end.

(** The metadata of candidate [gameId] names the install directory
    [dir], and [dir] exists. *)
Definition installedAt (platform : string) (w : World) (gp gameId dir : string) : Prop :=
  exists data gameInfo,
    readFile w (path_join platform [gp; gameId; "gameinfo"]) = Some data /\
    JSON_parse w data = Some gameInfo /\
    getProp gameInfo "installDirectory" = Some (VStr dir) /\
    dir <> "" /\
    stat w dir = true.

(** [findByName] passes over the entry [x]: its name converts to a
    string, and the string is not one that [P] holds of. *)
Definition passedOver (P : string -> Prop) (x : GameStoreEntry) : Prop :=
  exists title, ToString (name x) = Some title /\ ~ P title.

(** [e] is the first entry of [es] whose name converts to a string that
    [P] holds of, and the lookup gets that far. *)
Definition firstMatch (P : string -> Prop) (es : list GameStoreEntry)
           (e : GameStoreEntry) : Prop :=
  exists l1 l2 title,
    es = (l1 ++ e :: l2)%list /\ ToString (name e) = Some title /\ P title /\
    Forall (passedOver P) l1.

(** Before any match, [es] has an entry whose name has no string
    conversion. *)
Definition firstUntitled (P : string -> Prop) (es : list GameStoreEntry) : Prop :=
  exists l1 x l2,
    es = (l1 ++ x :: l2)%list /\ ToString (name x) = None /\ Forall (passedOver P) l1.

(** The three outcomes of a lookup by title in the snapshot [es], for the
    titles [P] that the pattern accepts: the first match; the
    entry-not-found error when every entry is passed over; the TypeError of
    the string conversion when that is met first. *)
Definition findsByTitle (P : string -> Prop) (namePattern : string)
           (es : list GameStoreEntry) (r : outcome GameStoreEntry) : Prop :=
  (forall e, r = Resolved e <-> firstMatch P es e) /\
  (r = Rejected (GameEntryNotFound namePattern STORE_ID) <-> Forall (passedOver P) es) /\
  (r = Rejected notPrimitive <-> firstUntitled P es).

(* ================================================================== *)
(** * Properties *)

Local Open Scope list_scope.

(** ** The enumerator *)

Lemma windowsEntry_fromStore api key e :
  windowsEntry api key = Some e -> fromStore e.
Proof.
  unfold windowsEntry.
  destruct (RegGetValue api key "gameID"); try discriminate.
  destruct (RegGetValue api key "path"); try discriminate.
  destruct (RegGetValue api key "startMenu"); try discriminate.
  intros [= <-]. reflexivity.
Qed.

Lemma windowsEntries_fromStore api keys :
  Forall fromStore (fst (windowsEntries api keys)).
Proof.
  induction keys as [|key keys IH]; simpl.
  - constructor.
  - destruct (windowsEntries api keys) as [es ls]; simpl in *.
    destruct (windowsEntry api key) as [e|] eqn:He; simpl; auto.
    constructor; eauto using windowsEntry_fromStore.
Qed.

Lemma macCandidate_fromStore platform w gp gameId :
  Forall fromStore (fst (macCandidate platform w gp gameId)).
Proof.
  unfold macCandidate.
  destruct (readFile w _); simpl; auto.
  destruct (JSON_parse w _); simpl; auto.
  destruct (readGameInfo _ _); simpl; auto.
  destruct (truthy _); simpl; auto.
  destruct (stat_value _ _); simpl; auto.
  repeat constructor.
Qed.

Lemma macCandidates_fromStore platform w gp dirs :
  Forall fromStore (fst (macCandidates platform w gp dirs)).
Proof.
  induction dirs as [|d dirs IH]; simpl.
  - constructor.
  - pose proof (macCandidate_fromStore platform w gp d) as H1.
    destruct (macCandidate platform w gp d) as [es1 ls1].
    destruct (macCandidates platform w gp dirs) as [es2 ls2]; simpl in *.
    apply Forall_app; split; assumption.
Qed.

(** Every enumeration settles with a list, whose entries all carry the
    identifier of this store. *)
Lemma enumerate_resolves platform client w :
  exists es, fst (enumerate platform client w) = Resolved es /\ Forall fromStore es.
Proof.
  unfold enumerate.
  destruct (platform =? "win32").
  - unfold getGameEntriesWindows.
    destruct client; [|exists []; split; [reflexivity|constructor]].
    destruct (winapi w) as [api|]; [|exists []; split; [reflexivity|constructor]].
    unfold registryScan, onRegistryThrow.
    destruct (WithRegOpen_games api) as [[]|code].
    + destruct (RegEnumKeys api) as [keys|code].
      * pose proof (windowsEntries_fromStore api keys) as H.
        destruct (windowsEntries api keys) as [es ls]. simpl in *.
        exists es; split; [reflexivity|assumption].
      * destruct (code =? "ENOENT"); exists []; split; try reflexivity; constructor.
    + destruct (code =? "ENOENT"); exists []; split; try reflexivity; constructor.
  - destruct (platform =? "darwin"); [|exists []; split; [reflexivity|constructor]].
    unfold getGameEntriesMacOS.
    destruct (stat w _); [|exists []; split; [reflexivity|constructor]].
    destruct (readdir w _) as [dirs|]; [|exists []; split; [reflexivity|constructor]].
    pose proof (macCandidates_fromStore platform w (gamesPath platform w) dirs) as H.
    destruct (macCandidates _ _ _ _) as [es ls]. simpl in *.
    exists es; split; [reflexivity|assumption].
Qed.

Lemma enumerate_unsupported platform client w :
  platform <> "win32" -> platform <> "darwin" ->
  enumerate platform client w = (Resolved [], []).
Proof.
  intros Hw Hd. unfold enumerate.
  apply String.eqb_neq in Hw, Hd. rewrite Hw, Hd. reflexivity.
Qed.

Lemma enumerate_win32_absent w :
  enumerate "win32" None w = (Resolved [], []).
Proof. reflexivity. Qed.

(** ** What holds of every reachable state *)

Lemma inv_constructor platform w : inv (constructor platform w).
Proof.
  unfold constructor.
  destruct (platform =? "win32") eqn:Hw.
  - apply String.eqb_eq in Hw. subst.
    split; simpl; intros; try discriminate; auto.
  - destruct (platform =? "darwin") eqn:Hd.
    + apply String.eqb_eq in Hd. subst.
      destruct (existsSync w standardPath);
        [|destruct (existsSync w _)];
        (split; simpl; intros; try discriminate;
         match goal with H : unsupported _ |- _ => destruct H; congruence end).
    + split; simpl; intros; try discriminate; auto.
Qed.

Lemma inv_settleProbe w st : inv st -> inv (settleProbe w st).
Proof.
  intros [Hc Hp Hu]. unfold settleProbe.
  destruct (probePending st) eqn:Hpend; [|split; auto; congruence].
  destruct (Hp eq_refl) as [Hnone Hwin].
  split; simpl.
  - intros p Hp'. destruct (Hc p Hp') as (es & Hs & Hf & Hlt & Hun & Hw).
    exists es. split; [assumption|]. split; [assumption|].
    split; [assumption|]. split; [assumption|].
    intros _ _. apply Hw; assumption.
  - discriminate.
  - intros [Hnw _]. congruence.
Qed.

Lemma inv_with_logs ls st : inv st -> inv (with_logs ls st).
Proof. intros [Hc Hp Hu]. split; simpl; auto. Qed.

(** A fresh enumeration, once memoized, keeps the invariant. *)
Lemma inv_refresh w st :
  inv st ->
  inv (with_cache (fst (getGameEntries w st)) (snd (getGameEntries w st))).
Proof.
  intros [Hc Hp Hu]. unfold getGameEntries.
  destruct (enumerate_resolves (processPlatform st) (mClientPath st) w)
    as (es & Hes & Hf).
  destruct (enumerate (processPlatform st) (mClientPath st) w) as [o ls] eqn:He.
  simpl in *. subst o.
  split; simpl; auto.
  intros p [= <-]. simpl. exists es. repeat split; auto.
  - intros [Hw Hd].
    rewrite (enumerate_unsupported _ (mClientPath st) w Hw Hd) in He. congruence.
  - intros Hw Hn. rewrite Hw, Hn in He. rewrite enumerate_win32_absent in He.
    congruence.
Qed.

Lemma allGames_fresh w st :
  mCache st = None ->
  allGames w st =
    (fst (getGameEntries w st),
     with_cache (fst (getGameEntries w st)) (snd (getGameEntries w st))).
Proof.
  intros H. unfold allGames. rewrite H.
  destruct (getGameEntries w st). reflexivity.
Qed.

Lemma allGames_cached w st p :
  mCache st = Some p -> allGames w st = (p, st).
Proof. intros H. unfold allGames. rewrite H. reflexivity. Qed.

Lemma reloadGames_eq w st :
  reloadGames w st =
    (Resolved tt,
     with_cache (fst (getGameEntries w st)) (snd (getGameEntries w st))).
Proof. unfold reloadGames. destruct (getGameEntries w st). reflexivity. Qed.

Lemma inv_allGames w st : inv st -> inv (snd (allGames w st)).
Proof.
  intros H. destruct (mCache st) as [p|] eqn:Hc.
  - rewrite (allGames_cached w _ _ Hc). assumption.
  - rewrite (allGames_fresh w _ Hc). simpl. apply inv_refresh. assumption.
Qed.

(** [findByName] leaves the state alone when the RegExp constructor
    throws and otherwise leaves what [allGames] leaves. *)
Lemma findByName_snd namePattern w st :
  snd (findByName namePattern w st) =
    match newRegExp w ("^" ++ namePattern ++ "$")%string with
    | RegExp.Refused _ => st
    | RegExp.Built _ => snd (allGames w st)
    end.
Proof.
  unfold findByName. destruct (newRegExp w _); [|reflexivity].
  destruct (allGames w st). reflexivity.
Qed.

Lemma inv_run w o st : inv st -> inv (run w o st).
Proof.
  intros H. destruct o; cbn [run].
  - apply inv_settleProbe; assumption.
  - apply inv_allGames; assumption.
  - rewrite reloadGames_eq. simpl. apply inv_refresh; assumption.
  - rewrite findByName_snd. destruct (newRegExp w _); [|assumption].
    apply inv_allGames; assumption.
  - unfold findByAppId.
    pose proof (inv_allGames w _ H) as H'.
    destruct (allGames w st); assumption.
  - unfold getExecInfo.
    pose proof (inv_allGames w _ H) as H'.
    destruct (allGames w st); assumption.
  - assumption.
  - unfold identifyGame.
    destruct (fallback gamePath0); simpl; auto.
    destruct (Bool.eqb _ _); auto using inv_with_logs.
Qed.

Lemma reachable_inv st : reachable st -> inv st.
Proof.
  induction 1; auto using inv_constructor, inv_run.
Qed.

(** The promise of [allGames] is the memoized one afterwards. *)
Lemma allGames_memoizes w st :
  mCache (snd (allGames w st)) = Some (fst (allGames w st)).
Proof.
  destruct (mCache st) as [p|] eqn:Hc.
  - rewrite (allGames_cached w _ _ Hc). assumption.
  - rewrite (allGames_fresh w _ Hc). reflexivity.
Qed.

(** In a reachable state [allGames] resolves, and with entries of this
    store only. *)
Lemma allGames_resolves w st :
  inv st ->
  exists es, settled (fst (allGames w st)) = Resolved es /\ Forall fromStore es.
Proof.
  intros H.
  destruct (inv_cache _ (inv_allGames w _ H) _ (allGames_memoizes w st))
    as (es & Hs & Hf & _).
  eauto.
Qed.

(** None of the lookups touches the platform or the client path. *)
Lemma allGames_frame w st :
  processPlatform (snd (allGames w st)) = processPlatform st /\
  mClientPath (snd (allGames w st)) = mClientPath st /\
  probePending (snd (allGames w st)) = probePending st.
Proof.
  unfold allGames, getGameEntries.
  destruct (mCache st); [auto|].
  destruct (enumerate _ _ _). simpl. auto.
Qed.

Lemma getExecInfo_eq appId w st :
  getExecInfo appId w st =
  (andThen (settled (fst (allGames w st))) (fun entries =>
     match find (fun entry => strict_eq_str appId (appid entry)) entries with
     | None => Rejected (GameEntryNotFound appId STORE_ID)
     | Some gameEntry =>
         match mClientPath st with
         | None => Rejected notInstalled
         | Some basePath =>
             andThen (Resolved basePath)
               (fun basePath => execPlan (processPlatform st) basePath gameEntry)
         end
     end),
   snd (allGames w st)).
Proof.
  unfold getExecInfo.
  destruct (allGames_frame w st) as (Hp & Hc & _).
  destruct (allGames w st) as [p st']. simpl in *. rewrite Hp, Hc. reflexivity.
Qed.

(** The snapshot of a reachable instance without a client path on a
    platform other than darwin is empty. *)
Lemma allGames_empty_off_darwin w st :
  inv st -> mClientPath st = None -> processPlatform st <> "darwin" ->
  settled (fst (allGames w st)) = Resolved [].
Proof.
  intros H Hn Hd.
  destruct (allGames_frame w st) as (Hp & Hc & _).
  destruct (inv_cache _ (inv_allGames w _ H) _ (allGames_memoizes w st))
    as (es & Hs & _ & _ & Hun & Hw).
  rewrite Hs. f_equal.
  rewrite Hp in Hun, Hw. rewrite Hc in Hw.
  destruct (string_dec (processPlatform st) "win32") as [E|E].
  - apply Hw; assumption.
  - apply Hun. split; assumption.
Qed.

(* ------------------------------------------------------------------ *)
(** ** C1: the probe resolved absent *)

(** C1, as stated, fails on darwin: the enumeration of the data
    directory never looks at [mClientPath].  On a Mac without the
    application bundle but with the data directory of the test suite, the
    constructor leaves [mClientPath] undefined and [allGames()] resolves
    with one entry, not with the empty sequence. *)
Lemma C1_counterexample :
  reachable (constructor "darwin" oneGameMac) /\
  mClientPath (constructor "darwin" oneGameMac) = None /\
  settled (fst (allGames oneGameMac (constructor "darwin" oneGameMac)))
    = Resolved [testGame1] /\
  settled (fst (allGames oneGameMac (constructor "darwin" oneGameMac)))
    <> Resolved [].
Proof.
  split; [constructor|]. split; [reflexivity|].
  split; [vm_compute; reflexivity|]. vm_compute. discriminate.
Qed.

(** C1 (amended): when [mClientPath] is undefined, [allGames()] never
    rejects; it resolves with the empty sequence on win32 and on every
    unsupported platform, and on darwin with whatever the enumeration of
    the data directory yields; [getGameStorePath()] resolves with
    [undefined]. *)
Theorem C1_absent_client_degrades (st : State) (w : World) :
  reachable st -> mClientPath st = None ->
  (exists es, settled (fst (allGames w st)) = Resolved es /\
              (processPlatform st <> "darwin" -> es = [])) /\
  (processPlatform st = "darwin" -> mCache st = None ->
   settled (fst (allGames w st)) = fst (getGameEntriesMacOS "darwin" w)) /\
  getGameStorePath st = Resolved None.
Proof.
  intros Hr Hn. apply reachable_inv in Hr.
  split; [|split].
  - destruct (allGames_resolves w _ Hr) as (es & Hs & _).
    exists es. split; [assumption|].
    intros Hd. pose proof (allGames_empty_off_darwin w _ Hr Hn Hd) as He.
    congruence.
  - intros Hd Hc. rewrite (allGames_fresh w _ Hc). simpl.
    unfold getGameEntries, enumerate. rewrite Hd. simpl.
    destruct (getGameEntriesMacOS "darwin" w). reflexivity.
  - unfold getGameStorePath. rewrite Hn. reflexivity.
Qed.

Lemma C1_absent_client_degrades_witness :
  (exists es, settled (fst (allGames bareWorld (constructor "win32" bareWorld)))
              = Resolved es /\
              ("win32" <> "darwin" -> es = [])) /\
  ("win32" = "darwin" -> mCache (constructor "win32" bareWorld) = None ->
   settled (fst (allGames bareWorld (constructor "win32" bareWorld)))
   = fst (getGameEntriesMacOS "darwin" bareWorld)) /\
  getGameStorePath (constructor "win32" bareWorld) = Resolved None.
Proof.
  apply (C1_absent_client_degrades (constructor "win32" bareWorld) bareWorld).
  - constructor.
  - reflexivity.
Defined.

(* ------------------------------------------------------------------ *)
(** ** C2: unsupported platforms *)

(** C2, as stated, fails: on linux the catalogue is empty, so
    [getExecInfo] rejects with the entry-not-found error of the lookup,
    which comes before the check of the client path; it never reaches the
    not-installed error. *)
Lemma C2_counterexample :
  unsupported "linux" /\
  fst (getExecInfo "1234" bareWorld (constructor "linux" bareWorld))
    = Rejected (GameEntryNotFound "1234" "gog") /\
  fst (getExecInfo "1234" bareWorld (constructor "linux" bareWorld))
    <> Rejected notInstalled.
Proof.
  split; [split; discriminate|].
  split; [reflexivity|]. vm_compute. discriminate.
Qed.

(** C2 (amended): on every platform other than win32 and darwin,
    [allGames()] resolves with the empty sequence and, for every appId,
    [getExecInfo(appId)] rejects with the entry-not-found error carrying
    the appId and the store id. *)
Theorem C2_unsupported_platform (st : State) (w : World) (appId : string) :
  reachable st -> unsupported (processPlatform st) ->
  settled (fst (allGames w st)) = Resolved [] /\
  fst (getExecInfo appId w st) = Rejected (GameEntryNotFound appId STORE_ID).
Proof.
  intros Hr [Hw Hd]. apply reachable_inv in Hr.
  assert (Hn : mClientPath st = None) by (apply (inv_client _ Hr); split; assumption).
  pose proof (allGames_empty_off_darwin w _ Hr Hn Hd) as He.
  split; [assumption|].
  rewrite getExecInfo_eq. simpl. rewrite He. reflexivity.
Qed.

Lemma C2_unsupported_platform_witness :
  settled (fst (allGames bareWorld (constructor "linux" fooWorld))) = Resolved [] /\
  fst (getExecInfo "9999" bareWorld (constructor "linux" fooWorld))
    = Rejected (GameEntryNotFound "9999" STORE_ID).
Proof.
  apply (C2_unsupported_platform (constructor "linux" fooWorld) bareWorld "9999").
  - constructor.
  - split; discriminate.
Defined.

(* ------------------------------------------------------------------ *)
(** ** C3: memoization *)

(** Once a promise is memoized, only [reloadGames] replaces it, and only
    [getGameEntries] counts as an enumeration. *)
Lemma run_keeps_cache w o st p :
  isReload o = false -> mCache st = Some p ->
  mCache (run w o st) = Some p /\ enumerations (run w o st) = enumerations st.
Proof.
  intros Ho Hc.
  destruct o; simpl in *; try discriminate.
  - unfold settleProbe. destruct (probePending st); simpl; auto.
  - rewrite (allGames_cached w _ _ Hc). auto.
  - unfold findByName. destruct (newRegExp w _); auto.
    rewrite (allGames_cached w _ _ Hc). auto.
  - unfold findByAppId. rewrite (allGames_cached w _ _ Hc). auto.
  - unfold getExecInfo. rewrite (allGames_cached w _ _ Hc). auto.
  - auto.
  - unfold identifyGame. destruct (fallback gamePath0); simpl; auto.
    destruct (Bool.eqb _ _); simpl; auto.
Qed.

Lemma runAll_keeps_cache h st p :
  forallb (fun wo => negb (isReload (snd wo))) h = true ->
  mCache st = Some p ->
  mCache (runAll h st) = Some p /\ enumerations (runAll h st) = enumerations st.
Proof.
  revert st. induction h as [|[w o] h IH]; intros st Hh Hc; simpl in *.
  - auto.
  - apply andb_true_iff in Hh. destruct Hh as [Ho Hh].
    apply negb_true_iff in Ho.
    destruct (run_keeps_cache w o _ _ Ho Hc) as [Hc' He'].
    destruct (IH _ Hh Hc') as [Hc'' He'']. split; congruence.
Qed.



(* ------------------------------------------------------------------ *)
(** ** C8: reload *)

(** C8: [reloadGames()] resolves with no value; it runs one enumeration
    against the world of that moment and memoizes its promise in place of
    whatever was memoized before, so the next [allGames()] returns that
    new promise (a different object from the old one), settled with the
    fresh enumeration, without enumerating again and whatever the world
    has become by then. *)
Theorem C8_reloadGames_refreshes (st : State) (w w' : World) :
  reachable st ->
  fst (reloadGames w st) = Resolved tt /\
  settled (fst (allGames w' (snd (reloadGames w st))))
    = fst (enumerate (processPlatform st) (mClientPath st) w) /\
  snd (allGames w' (snd (reloadGames w st))) = snd (reloadGames w st) /\
  enumerations (snd (reloadGames w st)) = S (enumerations st) /\
  (forall old, mCache st = Some old ->
               pid (fst (allGames w' (snd (reloadGames w st)))) <> pid old).
Proof.
  intros Hr. apply reachable_inv in Hr.
  rewrite reloadGames_eq. cbn [fst snd].
  rewrite (allGames_cached w' (with_cache _ _) _ eq_refl). simpl.
  unfold getGameEntries.
  destruct (enumerate (processPlatform st) (mClientPath st) w) as [o ls]. simpl.
  repeat split.
  intros old Hold.
  destruct (inv_cache _ Hr _ Hold) as (_ & _ & _ & Hlt & _). lia.
Qed.

(** The snapshot held both test games; by the time of the reload the
    second install directory is gone, and the next [allGames()] shows the
    first game only. *)
Lemma C8_reloadGames_refreshes_witness :
  reachable macCached /\
  snapshot (fst (allGames twoGamesMac macCached)) = [testGame1; testGame2] /\
  snapshot (fst (allGames bareWorld (snd (reloadGames oneGameMac macCached))))
    = [testGame1] /\
  (fst (reloadGames oneGameMac macCached) = Resolved tt /\
   settled (fst (allGames bareWorld (snd (reloadGames oneGameMac macCached))))
     = fst (enumerate (processPlatform macCached) (mClientPath macCached) oneGameMac) /\
   snd (allGames bareWorld (snd (reloadGames oneGameMac macCached)))
     = snd (reloadGames oneGameMac macCached) /\
   enumerations (snd (reloadGames oneGameMac macCached)) = S (enumerations macCached) /\
   (forall old, mCache macCached = Some old ->
                pid (fst (allGames bareWorld (snd (reloadGames oneGameMac macCached))))
                <> pid old)).
Proof.
  assert (Hr : reachable macCached) by (apply reach_run; apply reach_new).
  split; [exact Hr|].
  split; [reflexivity|].
  split; [reflexivity|].
  exact (C8_reloadGames_refreshes macCached oneGameMac bareWorld Hr).
Defined.

(* ------------------------------------------------------------------ *)
(** ** [Array.prototype.find]: the first match *)

Section FirstMatch.
Context {A : Type} (f : A -> bool).

Lemma find_first (l1 l2 : list A) (e : A) :
  Forall (fun x => f x = false) l1 -> f e = true ->
  find f (l1 ++ e :: l2) = Some e.
Proof.
  induction 1 as [|x l1 Hx _ IH]; intros He; simpl.
  - rewrite He. reflexivity.
  - rewrite Hx. auto.
Qed.

Lemma find_split (l : list A) (e : A) :
  find f l = Some e ->
  exists l1 l2, l = l1 ++ e :: l2 /\ f e = true /\ Forall (fun x => f x = false) l1.
Proof.
  induction l as [|x l IH]; simpl; [discriminate|].
  destruct (f x) eqn:Hx.
  - intros [= <-]. exists [], l. auto.
  - intros H. destruct (IH H) as (l1 & l2 & -> & He & Hl1).
    exists (x :: l1), l2. auto.
Qed.

Lemma find_none (l : list A) :
  find f l = None <-> Forall (fun x => f x = false) l.
Proof.
  induction l as [|x l IH]; simpl.
  - split; auto.
  - destruct (f x) eqn:Hx.
    + split; [discriminate|]. inversion 1; congruence.
    + rewrite IH. split; [auto|]. inversion 1; assumption.
Qed.
End FirstMatch.

Lemma strict_eq_str_spec (a : string) (v : value) :
  strict_eq_str a v = true <-> v = VStr a.
Proof.
  destruct v; simpl; try (split; [discriminate|intros [=]]).
  rewrite String.eqb_eq. split; [intros ->; reflexivity|intros [= ->]; reflexivity].
Qed.

Lemma not_true_false (b : bool) : ~ b = true <-> b = false.
Proof. destruct b; split; congruence. Qed.

(* ------------------------------------------------------------------ *)
(** ** C4: the execution plan on Windows *)

(** C4: on win32, with the client at [C:\GOG Galaxy] and a snapshot whose
    first entry of appid ['9999'] has the game path [C:\Games\Foo],
    [getExecInfo('9999')] resolves with the executable
    [C:\GOG Galaxy\GalaxyClient.exe] and the arguments [/command=runGame],
    [/gameId=9999], [path="C:\Games\Foo"], in this order. *)
Theorem C4_exec_plan_windows (st : State) (w : World)
        (before after : list GameStoreEntry) (e : GameStoreEntry) :
  processPlatform st = "win32" ->
  mClientPath st = Some "C:\GOG Galaxy" ->
  settled (fst (allGames w st)) = Resolved (before ++ e :: after) ->
  Forall (fun x => appid x <> VStr "9999") before ->
  appid e = VStr "9999" ->
  gamePath e = VStr "C:\Games\Foo" ->
  fst (getExecInfo "9999" w st) =
    Resolved {| execPath := "C:\GOG Galaxy\GalaxyClient.exe";
                arguments := ["/command=runGame";
                              "/gameId=9999";
                              ("path=" ++ dquote ++ "C:\Games\Foo" ++ dquote)%string] |}.
Proof.
  intros Hp Hc Hs Hb Ha Hg.
  rewrite getExecInfo_eq. cbn [fst]. rewrite Hs. cbn [andThen].
  rewrite find_first.
  - rewrite Hc, Hp. unfold execPlan. rewrite Ha, Hg. reflexivity.
  - eapply Forall_impl; [|exact Hb].
    intros x Hx. cbn beta. apply not_true_false.
    rewrite strict_eq_str_spec. exact Hx.
  - apply strict_eq_str_spec. exact Ha.
Qed.

Lemma C4_exec_plan_windows_witness :
  fst (getExecInfo "9999" bareWorld fooCached) =
    Resolved {| execPath := "C:\GOG Galaxy\GalaxyClient.exe";
                arguments := ["/command=runGame";
                              "/gameId=9999";
                              ("path=" ++ dquote ++ "C:\Games\Foo" ++ dquote)%string] |}.
Proof.
  apply (C4_exec_plan_windows fooCached bareWorld [] []
           {| appid := VStr "9999"; name := VStr "Foo";
              gamePath := VStr "C:\Games\Foo"; gameStoreId := "gog" |}).
  - reflexivity.
  - reflexivity.
  - reflexivity.
  - constructor.
  - reflexivity.
  - reflexivity.
Defined.

(* ------------------------------------------------------------------ *)
(** ** C9: identifying a game *)

(** C9, as stated, fails for a fallback that does not come to an
    answer.  On [markedMac] the file [gog.ico] exists under
    [/Games/Test Game 1], so the marker check reports true; the fallback
    rejects; [identifyGame] then rejects with the error of the fallback:
    it returns no boolean, and not the [true] of the marker check. *)
Lemma C9_counterexample :
  processPlatform macCached = "darwin" /\
  stat markedMac (path_join "darwin" ["/Games/Test Game 1"; "gog.ico"]) = true /\
  rejectingFallback "/Games/Test Game 1" = Rejected (Error "not a game") /\
  identifyGame "/Games/Test Game 1" rejectingFallback markedMac macCached
    = (Rejected (Error "not a game"), macCached) /\
  (forall answer : bool,
      fst (identifyGame "/Games/Test Game 1" rejectingFallback markedMac macCached)
        <> Resolved answer).
Proof.
  split; [reflexivity|]. split; [vm_compute; reflexivity|].
  split; [reflexivity|]. split; [reflexivity|].
  intros answer. discriminate.
Qed.

(** C9 (amended): for every path and every fallback, [identifyGame] does
    one of three things, by what the fallback does with the path.  When
    the fallback resolves with a boolean, the result is the disjunction of
    that boolean and of whether [stat] finds [gog.ico] under the path; one
    warning is appended to the log when the two differ and nothing when
    they agree; no other field of the instance changes.  When the fallback
    rejects, the result is a rejection with the same error; when it throws,
    [identifyGame] throws the same error; in both cases nothing is logged
    and the instance is as before. *)
Theorem C9_identifyGame_outcomes (gamePath : string)
        (fallback : string -> outcome bool) (w : World) (st : State) :
  match fallback gamePath with
  | Resolved fb =>
      fst (identifyGame gamePath fallback w st) =
        Resolved (stat w (path_join (processPlatform st) [gamePath; "gog.ico"]) || fb) /\
      logged (snd (identifyGame gamePath fallback w st)) =
        logged st ++
        (if Bool.eqb (stat w (path_join (processPlatform st) [gamePath; "gog.ico"])) fb
         then []
         else [log warn "(gog) game identification inconclusive"]) /\
      processPlatform (snd (identifyGame gamePath fallback w st)) = processPlatform st /\
      mClientPath (snd (identifyGame gamePath fallback w st)) = mClientPath st /\
      probePending (snd (identifyGame gamePath fallback w st)) = probePending st /\
      mCache (snd (identifyGame gamePath fallback w st)) = mCache st /\
      nextPromise (snd (identifyGame gamePath fallback w st)) = nextPromise st /\
      enumerations (snd (identifyGame gamePath fallback w st)) = enumerations st
  | Rejected err => identifyGame gamePath fallback w st = (Rejected err, st)
  | Threw err => identifyGame gamePath fallback w st = (Threw err, st)
  end.
Proof.
  unfold identifyGame, fileExists.
  destruct (fallback gamePath) as [fb|err|err]; [|reflexivity|reflexivity].
  cbn [fst snd]. split; [reflexivity|].
  destruct (Bool.eqb _ fb); cbn.
  - rewrite app_nil_r. repeat split; reflexivity.
  - repeat split; reflexivity.
Qed.

(** The four combinations of the two signals, and the two failures.  On
    [markedMac] the marker file of [/Games/Test Game 1] exists: with a
    fallback that agrees the answer is yes and the log is as before; with
    one that says no the answer is still yes, with one warning.  On
    [oneGameMac] the marker file is missing: a fallback that says yes gives
    yes with one warning, one that says no gives no in silence.  A
    fallback that rejects or throws is passed on. *)
Lemma C9_identifyGame_outcomes_witness :
  (fst (identifyGame "/Games/Test Game 1" (answering true) markedMac macCached)
     = Resolved true /\
   logged (snd (identifyGame "/Games/Test Game 1" (answering true) markedMac macCached))
     = logged macCached) /\
  (fst (identifyGame "/Games/Test Game 1" (answering false) markedMac macCached)
     = Resolved true /\
   logged (snd (identifyGame "/Games/Test Game 1" (answering false) markedMac macCached))
     = logged macCached ++ [log warn "(gog) game identification inconclusive"]) /\
  (fst (identifyGame "/Games/Test Game 1" (answering true) oneGameMac macCached)
     = Resolved true /\
   logged (snd (identifyGame "/Games/Test Game 1" (answering true) oneGameMac macCached))
     = logged macCached ++ [log warn "(gog) game identification inconclusive"]) /\
  (fst (identifyGame "/Games/Test Game 1" (answering false) oneGameMac macCached)
     = Resolved false /\
   logged (snd (identifyGame "/Games/Test Game 1" (answering false) oneGameMac macCached))
     = logged macCached) /\
  identifyGame "/Games/Test Game 1" rejectingFallback markedMac macCached
    = (Rejected (Error "not a game"), macCached) /\
  identifyGame "/Games/Test Game 1" throwingFallback markedMac macCached
    = (Threw (Error "not a game"), macCached).
Proof.
  pose proof (C9_identifyGame_outcomes "/Games/Test Game 1" (answering true)
                markedMac macCached) as (H1 & L1 & _).
  pose proof (C9_identifyGame_outcomes "/Games/Test Game 1" (answering false)
                markedMac macCached) as (H2 & L2 & _).
  pose proof (C9_identifyGame_outcomes "/Games/Test Game 1" (answering true)
                oneGameMac macCached) as (H3 & L3 & _).
  pose proof (C9_identifyGame_outcomes "/Games/Test Game 1" (answering false)
                oneGameMac macCached) as (H4 & L4 & _).
  pose proof (C9_identifyGame_outcomes "/Games/Test Game 1" rejectingFallback
                markedMac macCached) as H5.
  pose proof (C9_identifyGame_outcomes "/Games/Test Game 1" throwingFallback
                markedMac macCached) as H6.
  split; [split; [exact H1|rewrite L1; apply app_nil_r]|].
  split; [split; [exact H2|exact L2]|].
  split; [split; [exact H3|exact L3]|].
  split; [split; [exact H4|rewrite L4; apply app_nil_r]|].
  split; [exact H5|exact H6].
Defined.

(* ------------------------------------------------------------------ *)
(** ** C6: lookup by appid *)

Lemma matcher_spec (arg : AppIdArg) (e : GameStoreEntry) :
  matcher arg e = true <-> matchesId arg e.
Proof.
  destruct arg as [a|ids]; simpl.
  - apply strict_eq_str_spec.
  - unfold includes. rewrite existsb_exists.
    split; intros (a & Hin & Ha); exists a; split; auto;
      apply strict_eq_str_spec; assumption.
Qed.

Lemma matcher_false (arg : AppIdArg) (e : GameStoreEntry) :
  matcher arg e = false <-> ~ matchesId arg e.
Proof. rewrite <- matcher_spec. symmetry. apply not_true_false. Qed.

Lemma findByAppId_eq (arg : AppIdArg) (w : World) (st : State) :
  findByAppId arg w st =
    (andThen (settled (fst (allGames w st))) (fun entries =>
       entryOrNotFound (queryText arg) (find (matcher arg) entries)),
     snd (allGames w st)).
Proof. unfold findByAppId. destruct (allGames w st). reflexivity. Qed.

(** C6: over the snapshot [es] of [allGames()], [findByAppId] resolves
    with [e] exactly when [e] is the first entry that matches: its appid
    equals the scalar argument, or is one of the ids of the collection.  It
    rejects with the entry-not-found error exactly when no entry matches;
    the error carries the store id and the scalar id, or the ids joined
    with a comma and a space. *)
Theorem C6_findByAppId (arg : AppIdArg) (w : World) (st : State)
        (es : list GameStoreEntry) :
  settled (fst (allGames w st)) = Resolved es ->
  (forall e,
      fst (findByAppId arg w st) = Resolved e <->
      exists l1 l2, es = l1 ++ e :: l2 /\ matchesId arg e /\
                    Forall (fun x => ~ matchesId arg x) l1) /\
  (fst (findByAppId arg w st)
     = Rejected (GameEntryNotFound
                   (match arg with
                    | OneId a => a
                    | ManyIds ids => String.concat ", " ids
                    end) "gog") <->
   forall x, In x es -> ~ matchesId arg x).
Proof.
  intros Hs. rewrite findByAppId_eq. cbn [fst]. rewrite Hs. cbn [andThen].
  split.
  - intros e. split.
    + destruct (find (matcher arg) es) as [e'|] eqn:Hf; simpl; [|discriminate].
      intros [= <-].
      destruct (find_split _ _ _ Hf) as (l1 & l2 & -> & He & Hl1).
      exists l1, l2. split; [reflexivity|]. split; [apply matcher_spec; assumption|].
      eapply Forall_impl; [|exact Hl1]. intros x. apply matcher_false.
    + intros (l1 & l2 & -> & He & Hl1).
      rewrite find_first; [reflexivity| |apply matcher_spec; assumption].
      eapply Forall_impl; [|exact Hl1]. intros x. apply matcher_false.
  - split.
    + destruct (find (matcher arg) es) as [e'|] eqn:Hf; simpl; [discriminate|].
      intros _ x Hx. apply find_none in Hf.
      rewrite Forall_forall in Hf. apply matcher_false. auto.
    + intros Hno.
      assert (Hf : find (matcher arg) es = None).
      { apply find_none. apply Forall_forall. intros x Hx.
        apply matcher_false. auto. }
      rewrite Hf. simpl. destruct arg; reflexivity.
Qed.

(** On [twoGamesMac]: a collection whose second id is in the snapshot
    finds that entry; an id of the wrong case finds nothing. *)
Lemma C6_findByAppId_witness :
  fst (findByAppId (ManyIds ["none"; "67890"; "12345"]) twoGamesMac macCached)
    = Resolved testGame1 /\
  fst (findByAppId (ManyIds ["a"; "b"]) twoGamesMac macCached)
    = Rejected (GameEntryNotFound "a, b" "gog").
Proof.
  split.
  - apply (proj1 (C6_findByAppId (ManyIds ["none"; "67890"; "12345"]) twoGamesMac
                    macCached [testGame1; testGame2] eq_refl) testGame1).
    exists [], [testGame2]. split; [reflexivity|]. split; [|constructor].
    exists "12345". split; [simpl; auto|reflexivity].
  - apply (proj2 (C6_findByAppId (ManyIds ["a"; "b"]) twoGamesMac
                    macCached [testGame1; testGame2] eq_refl)).
    intros x [<-|[<-|[]]] (a & [<-|[<-|[]]] & Ha); discriminate.
Defined.

(* ------------------------------------------------------------------ *)
(** ** C10: the store identifier *)

Lemma andThen_find_fromStore (o : outcome (list GameStoreEntry))
      (query : string) (f : GameStoreEntry -> bool) (e : GameStoreEntry) :
  Forall fromStore (entriesOf o) ->
  andThen o (fun entries => entryOrNotFound query (find f entries)) = Resolved e ->
  fromStore e.
Proof.
  intros Hall. destruct o as [es| |]; simpl; try discriminate.
  destruct (find f es) as [e'|] eqn:Hf; simpl; [|discriminate].
  intros [= <-]. apply find_some in Hf. destruct Hf as [Hin _].
  simpl in Hall. rewrite Forall_forall in Hall. auto.
Qed.

Lemma findOrThrow_In {A : Type} (f : A -> option bool) (l : list A) (e : A) :
  findOrThrow f l = Resolved (Some e) -> In e l /\ f e = Some true.
Proof.
  induction l as [|x l IH]; simpl; [discriminate|].
  destruct (f x) as [[|]|] eqn:Hx; try discriminate.
  - intros [= <-]. auto.
  - intros H. destruct (IH H). auto.
Qed.

(** What [findByName] resolves with is an entry of the snapshot that the
    regex accepted. *)
Lemma findByName_resolved (namePattern : string) (w : World) (st : State)
      (e : GameStoreEntry) :
  fst (findByName namePattern w st) = Resolved e ->
  In e (entriesOf (settled (fst (allGames w st)))).
Proof.
  unfold findByName. destruct (newRegExp w _) as [test|msg]; [|discriminate].
  destruct (allGames w st) as [p st1]. cbn [fst].
  destruct (settled p) as [es| |]; cbn [andThen]; try discriminate.
  destruct (findOrThrow (testName test) es) as [[e'|]| |] eqn:Hf;
    cbn; try discriminate.
  intros [= <-]. apply findOrThrow_In in Hf. destruct Hf. assumption.
Qed.

(** C10: every entry that an enumeration path produces (registry, data
    directory, or the empty result of an unsupported platform) has
    [gameStoreId = 'gog'], and so has every entry that [allGames],
    [findByName] or [findByAppId] returns on a reachable instance. *)
Theorem C10_store_id_invariant (st : State) (w : World) :
  reachable st ->
  (forall client, Forall (fun e => gameStoreId e = "gog")
                         (entriesOf (fst (getGameEntriesWindows w client)))) /\
  (forall platform, Forall (fun e => gameStoreId e = "gog")
                           (entriesOf (fst (getGameEntriesMacOS platform w)))) /\
  (forall platform client, Forall (fun e => gameStoreId e = "gog")
                                  (entriesOf (fst (enumerate platform client w)))) /\
  Forall (fun e => gameStoreId e = "gog") (snapshot (fst (allGames w st))) /\
  (forall namePattern e st',
      findByName namePattern w st = (Resolved e, st') -> gameStoreId e = "gog") /\
  (forall arg e,
      fst (findByAppId arg w st) = Resolved e -> gameStoreId e = "gog").
Proof.
  intros Hr. apply reachable_inv in Hr.
  assert (Henum : forall platform client,
             Forall fromStore (entriesOf (fst (enumerate platform client w)))).
  { intros platform client.
    destruct (enumerate_resolves platform client w) as (es & -> & Hf). exact Hf. }
  assert (Hsnap : Forall fromStore (entriesOf (settled (fst (allGames w st))))).
  { destruct (allGames_resolves w st Hr) as (es & -> & Hf). exact Hf. }
  split; [|split; [|split; [|split; [|split]]]].
  - intros client. exact (Henum "win32" client).
  - intros platform. unfold getGameEntriesMacOS.
    destruct (stat w _); [|constructor].
    destruct (readdir w _) as [dirs|]; [|constructor].
    pose proof (macCandidates_fromStore platform w (gamesPath platform w) dirs) as H.
    destruct (macCandidates _ _ _ _). exact H.
  - exact Henum.
  - exact Hsnap.
  - intros pat e st' H.
    assert (Hin : In e (entriesOf (settled (fst (allGames w st))))).
    { apply (findByName_resolved pat). rewrite H. reflexivity. }
    rewrite Forall_forall in Hsnap. apply Hsnap. exact Hin.
  - intros arg e. rewrite findByAppId_eq. cbn [fst].
    apply andThen_find_fromStore. exact Hsnap.
Qed.

(** On [macCached], with the pattern [Test Game [12]], a character class
    that the engine of the world compiles, [findByName] resolves with the
    first test game, an entry of this store. *)
Lemma C10_store_id_invariant_witness :
  reachable macCached /\
  findByName "Test Game [12]" fooWorld macCached = (Resolved testGame1, macCached) /\
  gameStoreId testGame1 = "gog" /\
  ((forall client, Forall (fun e => gameStoreId e = "gog")
                          (entriesOf (fst (getGameEntriesWindows fooWorld client)))) /\
   (forall platform, Forall (fun e => gameStoreId e = "gog")
                            (entriesOf (fst (getGameEntriesMacOS platform fooWorld)))) /\
   (forall platform client, Forall (fun e => gameStoreId e = "gog")
                                   (entriesOf (fst (enumerate platform client fooWorld)))) /\
   Forall (fun e => gameStoreId e = "gog") (snapshot (fst (allGames fooWorld macCached))) /\
   (forall namePattern e st',
       findByName namePattern fooWorld macCached = (Resolved e, st') ->
       gameStoreId e = "gog") /\
   (forall arg e,
       fst (findByAppId arg fooWorld macCached) = Resolved e -> gameStoreId e = "gog")).
Proof.
  assert (Hr : reachable macCached) by (apply reach_run; apply reach_new).
  pose proof (C10_store_id_invariant macCached fooWorld Hr) as H.
  split; [exact Hr|].
  split; [reflexivity|].
  split; [|exact H].
  destruct H as (_ & _ & _ & _ & Hname & _).
  exact (Hname "Test Game [12]" testGame1 macCached eq_refl).
Defined.

(* ------------------------------------------------------------------ *)
(** ** C7: enumeration on macOS *)

Lemma readGameInfo_gamePath (gameInfo : value) (gameId : string) (gi : GameInfo) :
  readGameInfo gameInfo gameId = Some gi ->
  getProp gameInfo "installDirectory" = Some (gi_gamePath gi).
Proof.
  unfold readGameInfo.
  destruct (getProp gameInfo "gameId"); [|discriminate].
  destruct (getProp gameInfo "name"); [|discriminate].
  destruct (getProp gameInfo "title"); [|discriminate].
  destruct (getProp gameInfo "installDirectory"); [|discriminate].
  destruct (truthy _); [intros [= <-]; reflexivity|].
  destruct (truthy _); [intros [= <-]; reflexivity|].
  destruct (ToString _); [|discriminate].
  intros [= <-]. reflexivity.
Qed.

(** A candidate contributes at most one entry, and only from an install
    directory that is named and exists. *)
Lemma macCandidate_only_installed platform w gp gameId e :
  In e (fst (macCandidate platform w gp gameId)) ->
  exists dir, installedAt platform w gp gameId dir /\ gamePath e = VStr dir.
Proof.
  unfold macCandidate, installedAt.
  destruct (readFile w _) as [data|] eqn:Hread; [|intros []].
  destruct (JSON_parse w data) as [gameInfo|] eqn:Hparse; [|intros []].
  destruct (readGameInfo gameInfo gameId) as [gi|] eqn:Hgi; [|intros []].
  apply readGameInfo_gamePath in Hgi.
  destruct (truthy (gi_gamePath gi)) eqn:Htruthy; [|intros []].
  destruct (stat_value w (gi_gamePath gi)) eqn:Hstat; [|intros []].
  intros [<-|[]]. simpl.
  destruct (gi_gamePath gi) as [| | | |dir| |]; try discriminate.
  exists dir. split; [|reflexivity].
  exists data, gameInfo. repeat split; auto.
  simpl in Htruthy. intros ->. discriminate.
Qed.

Lemma macCandidate_skips platform w gp gameId :
  (forall dir, ~ installedAt platform w gp gameId dir) ->
  fst (macCandidate platform w gp gameId) = [].
Proof.
  intros Hno.
  destruct (fst (macCandidate platform w gp gameId)) as [|e es] eqn:He; [reflexivity|].
  destruct (macCandidate_only_installed platform w gp gameId e) as (dir & Hdir & _).
  - rewrite He. left. reflexivity.
  - destruct (Hno dir Hdir).
Qed.

Lemma macCandidates_app platform w gp l1 l2 :
  fst (macCandidates platform w gp (l1 ++ l2)) =
  fst (macCandidates platform w gp l1) ++ fst (macCandidates platform w gp l2).
Proof.
  induction l1 as [|g l1 IH]; simpl; [reflexivity|].
  destruct (macCandidate platform w gp g) as [es1 ls1].
  destruct (macCandidates platform w gp (l1 ++ l2)) as [es ls].
  destruct (macCandidates platform w gp l1) as [es' ls'].
  simpl in *. rewrite IH. apply app_assoc.
Qed.

Lemma macCandidates_cons platform w gp g l :
  fst (macCandidates platform w gp (g :: l)) =
  fst (macCandidate platform w gp g) ++ fst (macCandidates platform w gp l).
Proof.
  simpl. destruct (macCandidate platform w gp g).
  destruct (macCandidates platform w gp l). reflexivity.
Qed.

Lemma macCandidates_In platform w gp dirs e :
  In e (fst (macCandidates platform w gp dirs)) ->
  exists gameId, In gameId dirs /\ In e (fst (macCandidate platform w gp gameId)).
Proof.
  induction dirs as [|g dirs IH].
  - intros [].
  - rewrite macCandidates_cons. intros H. apply in_app_or in H.
    destruct H as [H|H].
    + exists g. split; [left; reflexivity|assumption].
    + destruct (IH H) as (g' & Hin & He). exists g'. split; [right|]; assumption.
Qed.

(** C7: on macOS every entry of the enumeration comes from a candidate
    directory whose metadata names an install directory that exists, and
    carries that path; with the candidates [12345] and [67890], the
    metadata of the test suite, and only [/Games/Test Game 1] on disk, the
    result is exactly the entry of [12345]; a candidate without an existing install directory is left out
    and the candidates around it are enumerated as without it; when the
    data directory is absent the result is the empty sequence; and the
    enumeration resolves in every case. *)
Theorem C7_macos_enumeration :
  (forall platform w e,
      In e (entriesOf (fst (getGameEntriesMacOS platform w))) ->
      exists gameDirs gameId dir,
        readdir w (gamesPath platform w) = Some gameDirs /\
        In gameId gameDirs /\
        installedAt platform w (gamesPath platform w) gameId dir /\
        gamePath e = VStr dir) /\
  (forall platform w data1 data2,
      stat w (gogDataPath platform w) = true ->
      readdir w (gamesPath platform w) = Some ["12345"; "67890"] ->
      readFile w (path_join platform [gamesPath platform w; "12345"; "gameinfo"])
        = Some data1 ->
      JSON_parse w data1
        = Some (gameinfoValue "12345" "Test Game 1" "/Games/Test Game 1") ->
      readFile w (path_join platform [gamesPath platform w; "67890"; "gameinfo"])
        = Some data2 ->
      JSON_parse w data2
        = Some (gameinfoValue "67890" "Test Game 2" "/Games/Test Game 2") ->
      stat w "/Games/Test Game 1" = true ->
      stat w "/Games/Test Game 2" = false ->
      fst (getGameEntriesMacOS platform w)
        = Resolved [{| appid := VStr "12345"; name := VStr "Test Game 1";
                       gamePath := VStr "/Games/Test Game 1"; gameStoreId := "gog" |}]) /\
  (forall platform w gp before gameId after,
      (forall dir, ~ installedAt platform w gp gameId dir) ->
      fst (macCandidates platform w gp (before ++ gameId :: after)) =
      fst (macCandidates platform w gp before) ++ fst (macCandidates platform w gp after)) /\
  (forall platform w,
      stat w (gogDataPath platform w) = false ->
      getGameEntriesMacOS platform w = (Resolved [], [])) /\
  (forall platform w,
      exists es, fst (getGameEntriesMacOS platform w) = Resolved es).
Proof.
  split; [|split; [|split; [|split]]].
  - intros platform w e. unfold getGameEntriesMacOS.
    destruct (stat w _); [|intros []].
    destruct (readdir w _) as [dirs|] eqn:Hdirs; [|intros []].
    intros He.
    assert (He' : In e (fst (macCandidates platform w (gamesPath platform w) dirs))).
    { destruct (macCandidates _ _ _ _). exact He. }
    destruct (macCandidates_In _ _ _ _ _ He') as (gameId & Hin & Hc).
    destruct (macCandidate_only_installed _ _ _ _ _ Hc) as (dir & Hdir & Hpath).
    exists dirs, gameId, dir. repeat split; assumption.
  - intros platform w data1 data2 Hdata Hdirs Hr1 Hp1 Hr2 Hp2 Hs1 Hs2.
    unfold getGameEntriesMacOS. rewrite Hdata, Hdirs.
    cbn [macCandidates]. unfold macCandidate.
    rewrite Hr1, Hp1, Hr2, Hp2. cbn. rewrite Hs1, Hs2. reflexivity.
  - intros platform w gp before gameId after Hno.
    rewrite macCandidates_app, macCandidates_cons.
    rewrite (macCandidate_skips _ _ _ _ Hno). reflexivity.
  - intros platform w H. unfold getGameEntriesMacOS. rewrite H. reflexivity.
  - intros platform w. unfold getGameEntriesMacOS.
    destruct (stat w _); [|exists []; reflexivity].
    destruct (readdir w _); [|exists []; reflexivity].
    destruct (macCandidates _ _ _ _) as [es ls]. exists es. reflexivity.
Qed.

Lemma C7_macos_enumeration_witness :
  fst (getGameEntriesMacOS "darwin" oneGameMac) = Resolved [testGame1] /\
  (forall dir, ~ installedAt "darwin" oneGameMac macGames "67890" dir) /\
  fst (macCandidates "darwin" oneGameMac macGames (["12345"] ++ "67890" :: ["12345"]))
    = [testGame1; testGame1] /\
  stat bareWorld (gogDataPath "darwin" bareWorld) = false /\
  getGameEntriesMacOS "darwin" bareWorld = (Resolved [], []).
Proof.
  destruct C7_macos_enumeration as (_ & Hscenario & Hskip & Habsent & _).
  assert (Hno : forall dir, ~ installedAt "darwin" oneGameMac macGames "67890" dir).
  { intros dir (data & gameInfo & Hread & Hparse & Hprop & _ & Hstat).
    vm_compute in Hread. injection Hread as <-.
    vm_compute in Hparse. injection Hparse as <-.
    vm_compute in Hprop. injection Hprop as <-.
    vm_compute in Hstat. discriminate. }
  split.
  - apply (Hscenario "darwin" oneGameMac
             (gameinfoText "12345" "Test Game 1" "/Games/Test Game 1")
             (gameinfoText "67890" "Test Game 2" "/Games/Test Game 2"));
      reflexivity.
  - split; [exact Hno|].
    split.
    + rewrite (Hskip "darwin" oneGameMac macGames ["12345"] "67890" ["12345"] Hno).
      reflexivity.
    + split; [reflexivity|].
      apply (Habsent "darwin" bareWorld). reflexivity.
Defined.

(* ------------------------------------------------------------------ *)
(** ** The anchored pattern *)

Module RegExpFacts.
Import RegExp.

Lemma add_end_snoc (l : regex) (alt : list term) :
  add_end (l ++ [alt]) = l ++ [alt ++ [TEnd]].
Proof.
  induction l as [|x l IH]; simpl; [reflexivity|].
  rewrite IH. destruct l; reflexivity.
Qed.

(** The scanner stops early only to refuse the pattern. *)
Lemma scan_char_stop (c : ascii) (sc : scanner) (r : regex) :
  scan_char c sc <> Stop (Compiled r).
Proof.
  unfold scan_char.
  destruct (escaped sc); [destruct (is_escapable c); discriminate|].
  destruct (Ascii.eqb c "\"); [discriminate|].
  destruct (Ascii.eqb c "|"); [discriminate|].
  destruct (Ascii.eqb c "^"); [discriminate|].
  destruct (Ascii.eqb c "$"); [discriminate|].
  destruct (Ascii.eqb c "."); [discriminate|].
  destruct (quant_of c).
  - destruct (last sc); try discriminate.
    destruct (Ascii.eqb c "?"); discriminate.
  - destruct (is_syntax_char c); discriminate.
Qed.

Lemma scan_end (cs : list ascii) (sc : scanner) (r : regex) :
  scan cs sc = Compiled r ->
  scan (cs ++ ["$"%char]) sc = Compiled (add_end r).
Proof.
  revert sc. induction cs as [|c cs IH]; intros sc; simpl.
  - destruct (escaped sc) eqn:He; [discriminate|].
    intros [= <-]. unfold scan_char. rewrite He. simpl. 
    rewrite add_end_snoc. reflexivity.
  - destruct (scan_char c sc) as [sc'|res] eqn:Hc; [apply IH|].
    intros ->. destruct (scan_char_stop _ _ _ Hc).
Qed.

Lemma started_final (sc sc' : scanner) :
  started sc sc' ->
  rev (rev (cur sc') :: done sc') = add_start (rev (rev (cur sc) :: done sc)).
Proof.
  intros [? ? _ _ Hd Hd' Hc|? ? d first _ _ Hd Hd' Hc].
  - rewrite Hd, Hd', Hc. simpl. rewrite rev_app_distr. reflexivity.
  - rewrite Hd, Hd', Hc. simpl. rewrite !rev_app_distr. reflexivity.
Qed.

Lemma started_step (c : ascii) (sc sc' : scanner) :
  started sc sc' ->
  match scan_char c sc with
  | Next n => exists n', scan_char c sc' = Next n' /\ started n n'
  | Stop res => scan_char c sc' = Stop res
  end.
Proof.
  intros H. unfold scan_char.
  assert (Hl : last sc' = last sc) by (destruct H; assumption).
  assert (He : escaped sc' = escaped sc) by (destruct H; assumption).
  rewrite He, Hl.
  assert (Hpush : forall t l, started (push t l sc) (push t l sc')).
  { intros t l. destruct H as [? ? _ _ Hd Hd' Hc|? ? d first _ _ Hd Hd' Hc].
    - apply started_first; simpl; auto. rewrite Hc. reflexivity.
    - apply started_later with d first; simpl; auto. rewrite Hc. reflexivity. }
  destruct (escaped sc) eqn:Hesc.
  { destruct (is_escapable c); eauto. }
  destruct (Ascii.eqb c "\").
  { eexists. split; [reflexivity|].
    destruct H as [? ? _ _ Hd Hd' Hc|? ? d first _ _ Hd Hd' Hc].
    - apply started_first; simpl; auto.
    - apply started_later with d first; simpl; auto. }
  destruct (Ascii.eqb c "|").
  { eexists. split; [reflexivity|].
    destruct H as [? ? _ _ Hd Hd' Hc|? ? d first _ _ Hd Hd' Hc].
    - apply started_later with [] (rev (cur sc)); simpl; auto.
      + rewrite Hd. reflexivity.
      + rewrite Hd', Hc, rev_app_distr. reflexivity.
    - apply started_later with (rev (cur sc) :: d) first; simpl; auto.
      + rewrite Hd. reflexivity.
      + rewrite Hd', Hc. reflexivity. }
  destruct (Ascii.eqb c "^"); [eauto|].
  destruct (Ascii.eqb c "$"); [eauto|].
  destruct (Ascii.eqb c "."); [eauto|].
  destruct (quant_of c) as [q|].
  - destruct (last sc) eqn:Hlast;
      [reflexivity| |destruct (Ascii.eqb c "?"); reflexivity].
    eexists. split; [reflexivity|].
    unfold requantify.
    destruct H as [? ? _ _ Hd Hd' Hc|? ? d first _ _ Hd Hd' Hc]; rewrite Hc.
    + destruct (cur sc) as [|[| |a q0] rest] eqn:Hcur; simpl;
        apply started_first; simpl; auto; congruence.
    + destruct (cur sc) as [|[| |a q0] rest] eqn:Hcur; simpl;
        apply started_later with d first; simpl; auto; congruence.
  - destruct (is_syntax_char c); eauto.
Qed.

Lemma scan_started (cs : list ascii) (sc sc' : scanner) (r : regex) :
  started sc sc' ->
  scan cs sc = Compiled r ->
  scan cs sc' = Compiled (add_start r).
Proof.
  revert sc sc'. induction cs as [|c cs IH]; intros sc sc' H; cbn [scan].
  - assert (He : escaped sc' = escaped sc) by (destruct H; assumption).
    rewrite He. destruct (escaped sc); [discriminate|].
    intros [= <-]. rewrite (started_final _ _ H). reflexivity.
  - pose proof (started_step c _ _ H) as Hstep.
    destruct (scan_char c sc) as [n|res].
    + destruct Hstep as (n' & -> & Hn). apply IH. exact Hn.
    + intros ->. destruct (scan_char_stop _ _ _ Hstep).
Qed.

Lemma list_ascii_of_string_app (a b : string) :
  list_ascii_of_string (a ++ b)%string =
  list_ascii_of_string a ++ list_ascii_of_string b.
Proof. induction a as [|c a IH]; simpl; [reflexivity|]. rewrite IH. reflexivity. Qed.

(** The pattern that [findByName] compiles is the caller's pattern with
    [^] put in front of its first alternative and [$] behind its last. *)
Lemma compile_anchored (p : string) (r : regex) :
  compile p = Compiled r ->
  compile ("^" ++ p ++ "$")%string = Compiled (add_start (add_end r)).
Proof.
  unfold compile. intros H.
  change ("^" ++ p ++ "$")%string with (String "^" (p ++ "$")%string).
  cbn [list_ascii_of_string]. rewrite list_ascii_of_string_app.
  cbn [list_ascii_of_string scan].
  change (scan_char "^" scan0) with (Next (push TStart NoAtom scan0)).
  apply scan_started with scan0.
  - apply started_first; reflexivity.
  - apply scan_end. exact H.
Qed.

Lemma search_start_only (ts : list term) (s : list ascii) :
  search [TStart :: ts] false s = false.
Proof. induction s as [|c s IH]; simpl; [reflexivity|exact IH]. Qed.

(** For a pattern without alternation the anchored test is the whole
    match. *)
Lemma test_anchored_single (alt : list term) (s : string) :
  test (add_start (add_end [alt])) s = whole_match [alt] s.
Proof.
  unfold test, whole_match. simpl.
  destruct (list_ascii_of_string s) as [|c cs]; simpl.
  - rewrite !orb_false_r. reflexivity.
  - rewrite search_start_only. rewrite !orb_false_r. reflexivity.
Qed.

(** *** Literal patterns *)

Lemma scan_char_literal (c : ascii) (sc : scanner) :
  is_syntax_char c = false -> escaped sc = false ->
  scan_char c sc = Next (push (TAtom (AChar c) One) Fresh sc).
Proof.
  intros Hc He. unfold scan_char. rewrite He, Hc.
  unfold is_syntax_char in Hc. cbn [existsb] in Hc.
  repeat (apply orb_false_iff in Hc; destruct Hc as [? Hc]).
  unfold quant_of.
  repeat match goal with H : Ascii.eqb c _ = false |- _ => rewrite H; clear H end.
  reflexivity.
Qed.

Lemma scan_literal (cs : list ascii) (sc : scanner) :
  forallb (fun c => negb (is_syntax_char c)) cs = true ->
  escaped sc = false ->
  scan cs sc = Compiled (rev (rev (rev (lit cs) ++ cur sc) :: done sc)).
Proof.
  revert sc. induction cs as [|c cs IH]; intros sc Hall He; cbn [scan].
  - rewrite He. reflexivity.
  - cbn [forallb] in Hall. apply andb_true_iff in Hall. destruct Hall as [Hc Hall].
    apply negb_true_iff in Hc.
    rewrite (scan_char_literal _ _ Hc He).
    rewrite (IH (push (TAtom (AChar c) One) Fresh sc) Hall eq_refl).
    cbn [push cur done lit map rev].
    rewrite <- app_assoc. reflexivity.
Qed.

Lemma compile_literal (p : string) :
  literal p = true -> compile p = Compiled [lit (list_ascii_of_string p)].
Proof.
  intros H. unfold compile. rewrite (scan_literal _ scan0 H eq_refl).
  cbn [scan0 cur done]. rewrite app_nil_r, rev_involutive. reflexivity.
Qed.

Lemma match_literal (cs s : list ascii) (at0 : bool) :
  match_terms (lit cs ++ [TEnd]) at0 s = true <-> s = cs.
Proof.
  revert s at0. induction cs as [|c cs IH]; intros s at0.
  - destruct s; simpl; split; congruence.
  - destruct s as [|x s]; cbn [lit map app match_terms atom_ok].
    + split; discriminate.
    + rewrite andb_true_iff. fold (lit cs). rewrite IH, Ascii.eqb_eq.
      split; [intros [-> ->]; reflexivity|intros [= -> ->]; auto].
Qed.

(** A pattern of literal characters matches a title as a whole exactly
    when the title is the pattern. *)
Lemma whole_match_literal (p s : string) :
  whole_match [lit (list_ascii_of_string p)] s = (s =? p)%string.
Proof.
  unfold whole_match. cbn [existsb]. rewrite orb_false_r.
  apply eq_true_iff_eq. rewrite match_literal, String.eqb_eq.
  split; [intros H|intros ->; reflexivity].
  rewrite <- (string_of_list_ascii_of_string s), H.
  apply string_of_list_ascii_of_string.
Qed.

End RegExpFacts.

(* ------------------------------------------------------------------ *)
(** ** C5: lookup by name *)

Lemma andThen_ext {A B : Type} (o : outcome A) (k k' : A -> outcome B) :
  (forall a, k a = k' a) -> andThen o k = andThen o k'.
Proof. intros H. destruct o; simpl; [rewrite H|..]; reflexivity. Qed.

Lemma find_ext' {A : Type} (f g : A -> bool) (l : list A) :
  (forall a, f a = g a) -> find f l = find g l.
Proof.
  intros H. induction l as [|x l IH]; simpl; [reflexivity|].
  rewrite H, IH. reflexivity.
Qed.

Lemma findOrThrow_ext {A : Type} (f g : A -> option bool) (l : list A) :
  (forall a, f a = g a) -> findOrThrow f l = findOrThrow g l.
Proof.
  intros H. induction l as [|x l IH]; simpl; [reflexivity|].
  rewrite H, IH. reflexivity.
Qed.

Lemma testName_ext (f g : string -> bool) (e : GameStoreEntry) :
  (forall title, f title = g title) -> testName f e = testName g e.
Proof.
  intros H. unfold testName. destruct (ToString (name e)); simpl; [rewrite H|]; reflexivity.
Qed.

Lemma newRegExp_compiled (w : World) (src : string) (re : RegExp.regex) :
  RegExp.compile src = RegExp.Compiled re ->
  newRegExp w src = RegExp.Built (RegExp.test re).
Proof. intros H. unfold newRegExp. rewrite H. reflexivity. Qed.

Lemma findByName_eq (namePattern : string) (w : World) (st : State) (re : RegExp.regex) :
  RegExp.compile ("^" ++ namePattern ++ "$")%string = RegExp.Compiled re ->
  findByName namePattern w st =
    (andThen
       (andThen (settled (fst (allGames w st)))
                (fun entries => findOrThrow (testName (RegExp.test re)) entries))
       (fun entry => entryOrNotFound namePattern entry),
     snd (allGames w st)).
Proof.
  intros H. unfold findByName. rewrite (newRegExp_compiled _ _ _ H).
  destruct (allGames w st). reflexivity.
Qed.

(** For a pattern without alternation [findByName] returns the first
    entry of the snapshot whose whole title matches the pattern, and
    rejects with the entry-not-found error, carrying the pattern and the
    store id, when there is none. *)
Lemma findByName_single (namePattern : string) (w : World) (st : State)
      (alt : list RegExp.term) :
  RegExp.compile namePattern = RegExp.Compiled [alt] ->
  findByName namePattern w st =
    (andThen
       (andThen (settled (fst (allGames w st)))
                (fun entries => findOrThrow (testName (RegExp.whole_match [alt])) entries))
       (fun entry => entryOrNotFound namePattern entry),
     snd (allGames w st)).
Proof.
  intros H. rewrite (findByName_eq _ _ _ _ (RegExpFacts.compile_anchored _ _ H)).
  do 2 f_equal. apply andThen_ext. intros es.
  apply findOrThrow_ext. intros e. apply testName_ext.
  apply RegExpFacts.test_anchored_single.
Qed.

(** For a pattern of literal characters that is the first entry whose
    title is the pattern. *)
Lemma findByName_literal (namePattern : string) (w : World) (st : State) :
  RegExp.literal namePattern = true ->
  findByName namePattern w st =
    (andThen
       (andThen (settled (fst (allGames w st)))
                (fun entries =>
                   findOrThrow (testName (fun title => (title =? namePattern)%string))
                               entries))
       (fun entry => entryOrNotFound namePattern entry),
     snd (allGames w st)).
Proof.
  intros H. rewrite (findByName_single _ _ _ _ (RegExpFacts.compile_literal _ H)).
  do 2 f_equal. apply andThen_ext. intros es.
  apply findOrThrow_ext. intros e. apply testName_ext.
  intros title. apply RegExpFacts.whole_match_literal.
Qed.

(** C5 at the failing input: [Test|Game] is a valid pattern; the title
    [Test Game 10] does not match it as a whole; yet
    [findByName('Test|Game')] resolves with the entry of that title,
    because [^Test|Game$] anchors each alternative on one side only.  The
    example of the claim itself holds: [findByName('Test Game 1')] passes
    over [Test Game 10] and resolves with [Test Game 1]; and a pattern that
    no title matches is rejected with the entry-not-found error carrying
    the pattern and ['gog']. *)
Theorem C5_findByName_alternation :
  (exists r, RegExp.compile "Test|Game" = RegExp.Compiled r /\
             RegExp.whole_match r "Test Game 10" = false) /\
  snapshot (fst (allGames bareWorld testGame10Cached))
    = [testGame10;
       {| appid := VStr "1"; name := VStr "Test Game 1";
          gamePath := VStr "C:\Games\Test Game 1"; gameStoreId := "gog" |}] /\
  findByName "Test|Game" bareWorld testGame10Cached
    = (Resolved testGame10, testGame10Cached) /\
  findByName "Test Game 1" bareWorld testGame10Cached
    = (Resolved {| appid := VStr "1"; name := VStr "Test Game 1";
                   gamePath := VStr "C:\Games\Test Game 1";
                   gameStoreId := "gog" |}, testGame10Cached) /\
  findByName "Test Game 2" bareWorld testGame10Cached
    = (Rejected (GameEntryNotFound "Test Game 2" "gog"), testGame10Cached).
Proof.
  split.
  - eexists. split; [vm_compute; reflexivity|]. vm_compute. reflexivity.
  - repeat split; vm_compute; reflexivity.
Qed.

(* ================================================================== *)
(** * Further properties of the code *)

(** ** The client path over the life of an instance *)

Lemma getGameEntries_frame (w : World) (st : State) :
  processPlatform (snd (getGameEntries w st)) = processPlatform st /\
  mClientPath (snd (getGameEntries w st)) = mClientPath st /\
  probePending (snd (getGameEntries w st)) = probePending st.
Proof. unfold getGameEntries. destruct (enumerate _ _ _). simpl. auto. Qed.

(** Every operation keeps the platform; once the probe has settled every
    operation keeps the client path too. *)
Lemma run_frame (w : World) (o : Op) (st : State) :
  processPlatform (run w o st) = processPlatform st /\
  (probePending st = false ->
   mClientPath (run w o st) = mClientPath st /\ probePending (run w o st) = false).
Proof.
  assert (Hall : processPlatform (snd (allGames w st)) = processPlatform st /\
                 (probePending st = false ->
                  mClientPath (snd (allGames w st)) = mClientPath st /\
                  probePending (snd (allGames w st)) = false)).
  { destruct (allGames_frame w st) as (Hp & Hc & Hq).
    split; [assumption|]. intros H. split; congruence. }
  destruct o; simpl.
  - unfold settleProbe. destruct (probePending st) eqn:Hp; simpl.
    + split; [reflexivity|discriminate].
    + auto.
  - exact Hall.
  - rewrite reloadGames_eq. cbn [snd].
    destruct (getGameEntries_frame w st) as (Hp & Hc & Hq).
    unfold with_cache. simpl. split; [assumption|]. intros H. split; congruence.
  - unfold findByName. destruct (newRegExp w _); auto.
    destruct (allGames w st). exact Hall.
  - unfold findByAppId. destruct (allGames w st). exact Hall.
  - unfold getExecInfo. destruct (allGames w st). exact Hall.
  - auto.
  - unfold identifyGame. destruct (fallback gamePath0); simpl; auto.
    destruct (Bool.eqb _ _); simpl; auto.
Qed.

Lemma client_path_frame (h : list (World * Op)) (st : State) :
  probePending st = false ->
  mClientPath (runAll h st) = mClientPath st /\
  processPlatform (runAll h st) = processPlatform st.
Proof.
  revert st. induction h as [|[w o] h IH]; intros st Hp; simpl.
  - auto.
  - destruct (run_frame w o st) as (Hplat & Hfix).
    destruct (Hfix Hp) as (Hc & Hp').
    destruct (IH _ Hp') as (Hc' & Hplat'). split; congruence.
Qed.

(** X1: once the probe has settled, the client path is fixed for good: no
    history of operations, further settle events included, changes
    [mClientPath], the platform, or what [getGameStorePath()] answers. *)
Theorem client_path_permanent (st : State) (h : list (World * Op)) :
  probePending st = false ->
  mClientPath (runAll h st) = mClientPath st /\
  processPlatform (runAll h st) = processPlatform st /\
  getGameStorePath (runAll h st) = getGameStorePath st.
Proof.
  revert st. induction h as [|[w o] h IH]; intros st Hp; simpl.
  - auto.
  - destruct (run_frame w o st) as (Hplat & Hfix).
    destruct (Hfix Hp) as (Hc & Hp').
    destruct (IH _ Hp') as (Hc' & Hplat' & Hg).
    split; [congruence|]. split; [congruence|].
    rewrite Hg. unfold getGameStorePath. rewrite Hc, Hplat. reflexivity.
Qed.

(** The probe of [fooCached] found [C:\GOG Galaxy]; a reload on a bare
    machine and a second settle event do not take it away. *)
Lemma client_path_permanent_witness :
  mClientPath (runAll [(bareWorld, OpReloadGames); (bareWorld, OpSettleProbe)] fooCached)
    = Some "C:\GOG Galaxy" /\
  processPlatform (runAll [(bareWorld, OpReloadGames); (bareWorld, OpSettleProbe)] fooCached)
    = "win32" /\
  getGameStorePath (runAll [(bareWorld, OpReloadGames); (bareWorld, OpSettleProbe)] fooCached)
    = Resolved (Some "C:\GOG Galaxy\GalaxyClient.exe").
Proof.
  exact (client_path_permanent fooCached
           [(bareWorld, OpReloadGames); (bareWorld, OpSettleProbe)] eq_refl).
Defined.

(** ** A lookup made before the probe settles *)

(** X2: on win32 the constructor returns before the registry has been
    read.  A first [allGames()] made then memoizes the empty sequence, and
    every later [allGames()] returns it, whatever the registry holds and
    also after the probe has found the client, until [reloadGames()] is
    called. *)
Theorem early_lookup_pins_empty (w0 w1 w2 : World) (h : list (World * Op)) :
  forallb (fun wo => negb (isReload (snd wo))) h = true ->
  settled (fst (allGames w2 (runAll h (snd (allGames w1 (constructor "win32" w0))))))
    = Resolved [].
Proof.
  intros Hh.
  pose proof (allGames_memoizes w1 (constructor "win32" w0)) as Hm.
  destruct (runAll_keeps_cache h _ _ Hh Hm) as [Hc _].
  rewrite (allGames_cached w2 _ _ Hc). reflexivity.
Qed.

(** On [fooWorld] the early snapshot stays empty after the probe has
    found the client; the reload then lists the game. *)
Lemma early_lookup_pins_empty_witness :
  settled (fst (allGames fooWorld
                  (runAll [(fooWorld, OpSettleProbe)]
                          (snd (allGames fooWorld (constructor "win32" fooWorld))))))
    = Resolved [] /\
  mClientPath (runAll [(fooWorld, OpSettleProbe)]
                      (snd (allGames fooWorld (constructor "win32" fooWorld))))
    = Some "C:\GOG Galaxy" /\
  snapshot (fst (allGames fooWorld
                   (runAll [(fooWorld, OpSettleProbe); (fooWorld, OpReloadGames)]
                           (snd (allGames fooWorld (constructor "win32" fooWorld))))))
    = [{| appid := VStr "9999"; name := VStr "Foo";
          gamePath := VStr "C:\Games\Foo"; gameStoreId := "gog" |}].
Proof.
  split.
  - exact (early_lookup_pins_empty fooWorld fooWorld fooWorld
             [(fooWorld, OpSettleProbe)] eq_refl).
  - split; reflexivity.
Defined.

(** ** How often the operating system is enumerated *)

Lemma run_reload (w : World) (st : State) :
  exists p, mCache (run w OpReloadGames st) = Some p /\
            enumerations (run w OpReloadGames st) = S (enumerations st).
Proof.
  simpl. rewrite reloadGames_eq. cbn [snd].
  unfold getGameEntries. destruct (enumerate _ _ _). simpl. eauto.
Qed.

Lemma allGames_from_none (w : World) (st : State) :
  mCache st = None ->
  exists p, mCache (snd (allGames w st)) = Some p /\
            enumerations (snd (allGames w st)) = S (enumerations st).
Proof.
  intros H. rewrite (allGames_fresh w _ H). cbn [snd].
  unfold getGameEntries. destruct (enumerate _ _ _). simpl. eauto.
Qed.

(** From an instance without a snapshot an operation either leaves it so
    and enumerates nothing, or memoizes one after exactly one enumeration. *)
Lemma run_from_none (w : World) (o : Op) (st : State) :
  mCache st = None ->
  (mCache (run w o st) = None /\ enumerations (run w o st) = enumerations st) \/
  (exists p, mCache (run w o st) = Some p /\
             enumerations (run w o st) = S (enumerations st)).
Proof.
  intros H. pose proof (allGames_from_none w st H) as Hall.
  destruct o.
  - left. simpl. unfold settleProbe. destruct (probePending st); simpl; auto.
  - right. exact Hall.
  - right. apply run_reload.
  - simpl. unfold findByName. destruct (newRegExp w _); auto.
    right. destruct (allGames w st). exact Hall.
  - right. simpl. unfold findByAppId. destruct (allGames w st). exact Hall.
  - right. simpl. unfold getExecInfo. destruct (allGames w st). exact Hall.
  - left. auto.
  - left. simpl. unfold identifyGame. destruct (fallback gamePath0); simpl; auto.
    destruct (Bool.eqb _ _); simpl; auto.
Qed.

Lemma countReloads_cons (w : World) (o : Op) (h : list (World * Op)) :
  countReloads ((w, o) :: h) = (if isReload o then 1 else 0) + countReloads h.
Proof. unfold countReloads. simpl. destruct (isReload o); reflexivity. Qed.

Lemma enumerations_cached (h : list (World * Op)) (st : State)
      (p : Promise (list GameStoreEntry)) :
  mCache st = Some p ->
  enumerations (runAll h st) = enumerations st + countReloads h.
Proof.
  revert st p. induction h as [|[w o] h IH]; intros st p Hc; simpl.
  - unfold countReloads. simpl. lia.
  - rewrite countReloads_cons.
    destruct (isReload o) eqn:Ho.
    + destruct o; try discriminate.
      destruct (run_reload w st) as (q & Hq & He).
      rewrite (IH _ _ Hq), He. lia.
    + destruct (run_keeps_cache w o _ _ Ho Hc) as [Hc' He].
      rewrite (IH _ _ Hc'), He. lia.
Qed.

Lemma enumerations_bound (h : list (World * Op)) (st : State) :
  enumerations (runAll h st) <= enumerations st + 1 + countReloads h.
Proof.
  revert st. induction h as [|[w o] h IH]; intros st; simpl.
  - lia.
  - destruct (mCache st) as [p|] eqn:Hc.
    + change (runAll h (run w o st)) with (runAll ((w, o) :: h) st).
      rewrite (enumerations_cached ((w, o) :: h) _ _ Hc). lia.
    + rewrite countReloads_cons.
      destruct (run_from_none w o _ Hc) as [[Hn He]|(q & Hq & He)].
      * specialize (IH (run w o st)). lia.
      * rewrite (enumerations_cached h _ _ Hq), He. lia.
Qed.

(** X3: over any history of an instance, [getGameEntries] runs at most
    once more than [reloadGames()] was called; and from the first
    [allGames()] on it runs exactly once per [reloadGames()], whatever
    lookups are made in between. *)
Theorem enumeration_budget (platform : string) (w0 w : World) (h : list (World * Op)) :
  enumerations (runAll h (constructor platform w0)) <= 1 + countReloads h /\
  enumerations (runAll h (snd (allGames w (constructor platform w0))))
    = 1 + countReloads h.
Proof.
  split.
  - pose proof (enumerations_bound h (constructor platform w0)) as H.
    assert (H0 : enumerations (constructor platform w0) = 0).
    { unfold constructor.
      destruct (platform =? "win32")%string; [reflexivity|].
      destruct (platform =? "darwin")%string; [|reflexivity].
      destruct (existsSync w0 standardPath); [reflexivity|].
      destruct (existsSync w0 _); reflexivity. }
    lia.
  - assert (Hn : mCache (constructor platform w0) = None).
    { unfold constructor.
      destruct (platform =? "win32")%string; [reflexivity|].
      destruct (platform =? "darwin")%string; [|reflexivity].
      destruct (existsSync w0 standardPath); [reflexivity|].
      destruct (existsSync w0 _); reflexivity. }
    destruct (allGames_from_none w _ Hn) as (p & Hp & He).
    rewrite (enumerations_cached h _ _ Hp), He.
    assert (H0 : enumerations (constructor platform w0) = 0).
    { unfold constructor.
      destruct (platform =? "win32")%string; [reflexivity|].
      destruct (platform =? "darwin")%string; [|reflexivity].
      destruct (existsSync w0 standardPath); [reflexivity|].
      destruct (existsSync w0 _); reflexivity. }
    lia.
Qed.

(* ------------------------------------------------------------------ *)
(** ** Enumeration on Windows *)





(** What can go wrong with the registry: the module does not load, the
    Games key does not open, or its subkeys cannot be listed. *)
Lemma registry_failure_cases (w : World) (client : string) :
  (winapi w = None \/
   exists api code,
     winapi w = Some api /\
     (WithRegOpen_games api = RegThrow code \/
      (WithRegOpen_games api = RegOk tt /\ RegEnumKeys api = RegThrow code))) ->
  getGameEntriesWindows w (Some client) = (Resolved [], []).
Proof.
  unfold getGameEntriesWindows, registryScan, onRegistryThrow.
  intros [->|(api & code & -> & [->|[-> ->]])];
    try reflexivity; destruct (code =? "ENOENT")%string; reflexivity.
Qed.

(** X5: with a client path known, any failure of the registry gives the
    empty result with nothing logged: the module failing to load, the
    Games key failing to open, or its subkeys failing to list, with
    [ENOENT] or any other error code.  It is the final [catch] that absorbs
    the other codes: the promise it wraps does reject for them. *)
Theorem windows_failures_give_empty (w : World) (client : string)
        (api : Winapi) (code : string) :
  winapi w = Some api ->
  WithRegOpen_games api = RegThrow code \/
  (WithRegOpen_games api = RegOk tt /\ RegEnumKeys api = RegThrow code) ->
  getGameEntriesWindows w (Some client) = (Resolved [], []) /\
  (code <> "ENOENT" -> fst (registryScan api) = Rejected (RegistryError code)) /\
  (code = "ENOENT" -> fst (registryScan api) = Resolved []).
Proof.
  intros Hapi Hfail. split.
  - apply registry_failure_cases. right. exists api, code. auto.
  - unfold registryScan, onRegistryThrow.
    split; intros Hc.
    + apply String.eqb_neq in Hc.
      destruct Hfail as [->|[-> ->]]; rewrite Hc; reflexivity.
    + subst code. destruct Hfail as [->|[-> ->]]; reflexivity.
Qed.

Lemma windows_failures_give_empty_witness :
  getGameEntriesWindows lockedWorld (Some "C:\GOG Galaxy") = (Resolved [], []) /\
  ("EACCES" <> "ENOENT" ->
   fst (registryScan {| RegGetValue_client := Some "C:\GOG Galaxy";
                        WithRegOpen_games := RegThrow "EACCES";
                        RegEnumKeys := RegOk [];
                        RegGetValue := fun _ _ => None |})
     = Rejected (RegistryError "EACCES")) /\
  ("EACCES" = "ENOENT" ->
   fst (registryScan {| RegGetValue_client := Some "C:\GOG Galaxy";
                        WithRegOpen_games := RegThrow "EACCES";
                        RegEnumKeys := RegOk [];
                        RegGetValue := fun _ _ => None |})
     = Resolved []).
Proof.
  exact (windows_failures_give_empty lockedWorld "C:\GOG Galaxy" _ "EACCES"
           eq_refl (or_introl eq_refl)).
Defined.

(* ------------------------------------------------------------------ *)
(** ** Enumeration on macOS *)

Lemma js_or_truthy_r (a b : value) : truthy b = true -> truthy (js_or a b) = true.
Proof. intros H. unfold js_or. destruct (truthy a) eqn:Ha; assumption. Qed.

Lemma truthy_nonempty (s : string) : s <> "" -> truthy (VStr s) = true.
Proof. intros H. simpl. apply negb_true_iff. apply String.eqb_neq. exact H. Qed.

(** What a candidate that yields an entry has put into it. *)
Lemma macCandidate_entry (platform : string) (w : World) (gp gameId : string)
      (e : GameStoreEntry) :
  In e (fst (macCandidate platform w gp gameId)) ->
  exists gameInfo gid nm title,
    getProp gameInfo "gameId" = Some gid /\
    getProp gameInfo "name" = Some nm /\
    getProp gameInfo "title" = Some title /\
    appid e = js_or gid (VStr gameId) /\
    exists text,
      name e = js_or nm (js_or title (VStr ("GOG Game " ++ text))) /\
      (truthy nm = false -> truthy title = false -> ToString (appid e) = Some text).
Proof.
  unfold macCandidate.
  destruct (readFile w _) as [data|]; [|intros []].
  destruct (JSON_parse w data) as [gameInfo|]; [|intros []].
  unfold readGameInfo.
  destruct (getProp gameInfo "gameId") as [gid|] eqn:Hgid; [|intros []].
  destruct (getProp gameInfo "name") as [nm|] eqn:Hnm; [|intros []].
  destruct (getProp gameInfo "title") as [title|] eqn:Htitle; [|intros []].
  destruct (getProp gameInfo "installDirectory") as [dir|]; [|intros []].
  destruct (truthy nm) eqn:Tn; [|destruct (truthy title) eqn:Tt;
    [|destruct (ToString (js_or gid (VStr gameId))) as [text|] eqn:Hs; [|intros []]]];
    cbn [gi_gamePath gi_appid gi_name];
    (destruct (truthy dir); [|intros []]);
    (destruct (stat_value w dir); [|intros []]);
    intros [<-|[]]; exists gameInfo, gid, nm, title; cbn [appid name];
    (split; [assumption|]); (split; [assumption|]); (split; [assumption|]);
    (split; [reflexivity|]).
  - exists "". unfold js_or. rewrite Tn. split; [reflexivity|discriminate].
  - exists "". unfold js_or. rewrite Tn, Tt. split; [reflexivity|discriminate].
  - exists text. unfold js_or at 1 2. rewrite Tn, Tt. split; [reflexivity|auto].
Qed.

(** X6: every entry of the enumeration on macOS has a display name that
    is truthy (never undefined, null or the empty string): the metadata's
    [name], else its [title], else the text [GOG Game] followed by the
    appid; and its appid is truthy too as long as no candidate directory has
    the empty name. *)
Theorem macos_entries_named (platform : string) (w : World) (e : GameStoreEntry) :
  In e (entriesOf (fst (getGameEntriesMacOS platform w))) ->
  truthy (name e) = true /\
  (forall gameDirs,
      readdir w (gamesPath platform w) = Some gameDirs ->
      Forall (fun d => d <> "") gameDirs ->
      truthy (appid e) = true).
Proof.
  unfold getGameEntriesMacOS.
  destruct (stat w _); [|intros []].
  destruct (readdir w _) as [dirs|] eqn:Hdirs; [|intros []].
  intros He.
  assert (He' : In e (fst (macCandidates platform w (gamesPath platform w) dirs))).
  { destruct (macCandidates _ _ _ _). exact He. }
  destruct (macCandidates_In _ _ _ _ _ He') as (gameId & Hin & Hc).
  destruct (macCandidate_entry _ _ _ _ _ Hc)
    as (gameInfo & gid & nm & title & _ & _ & _ & Happ & text & Hname & _).
  split.
  - rewrite Hname. do 2 apply js_or_truthy_r. reflexivity.
  - intros gameDirs [= <-] Hne. rewrite Happ. apply js_or_truthy_r.
    apply truthy_nonempty. rewrite Forall_forall in Hne. auto.
Qed.

Lemma macos_entries_named_witness :
  truthy (name testGame2) = true /\
  (forall gameDirs,
      readdir twoGamesMac (gamesPath "darwin" twoGamesMac) = Some gameDirs ->
      Forall (fun d => d <> "") gameDirs ->
      truthy (appid testGame2) = true).
Proof.
  apply (macos_entries_named "darwin" twoGamesMac testGame2).
  right. left. reflexivity.
Defined.




(** X8: a candidate whose metadata parses to an object naming an install
    directory that exists yields exactly one entry, with that directory as
    its game path, unless it has no name to give.  The appid is the
    metadata's [gameId] when that is truthy and the name of the candidate
    directory otherwise; the name is the metadata's [name] when truthy,
    else its [title] when truthy, else the text [GOG Game] followed by the
    appid as a string.  When neither is truthy and the appid has no string
    conversion, the TypeError is caught with the parse errors: no entry,
    one error line in the log. *)
Theorem macos_metadata_fallbacks (platform : string) (w : World)
        (gp gameId data : string) (fields : list (string * value)) (dir : string) :
  readFile w (path_join platform [gp; gameId; "gameinfo"]) = Some data ->
  JSON_parse w data = Some (VObj fields) ->
  assoc "installDirectory" fields = VStr dir ->
  dir <> "" ->
  stat w dir = true ->
  macCandidate platform w gp gameId =
    let appid := if truthy (assoc "gameId" fields) then assoc "gameId" fields
                 else VStr gameId in
    let entry := fun name =>
      ([{| appid := appid; name := name; gamePath := VStr dir; gameStoreId := "gog" |}],
       []) in
    if truthy (assoc "name" fields) then entry (assoc "name" fields)
    else if truthy (assoc "title" fields) then entry (assoc "title" fields)
    else match ToString appid with
         | Some text => entry (VStr ("GOG Game " ++ text))
         | None => ([], [log error "Failed to parse GOG game info"])
         end.
Proof.
  intros Hread Hparse Hdir Hne Hstat.
  unfold macCandidate. rewrite Hread, Hparse.
  unfold readGameInfo. cbn [getProp]. unfold js_or. rewrite Hdir.
  destruct (truthy (assoc "name" fields));
    [|destruct (truthy (assoc "title" fields));
      [|destruct (ToString _); [|reflexivity]]];
    cbn [gi_gamePath gi_appid gi_name];
    rewrite (truthy_nonempty _ Hne); cbn [stat_value]; rewrite Hstat; reflexivity.
Qed.

(** On [titleOnlyMac] the entry takes its appid from the directory name
    and its name from the title; on [opaqueIdMac] the candidate has
    neither name nor title and its [gameId] cannot be made a string: it
    is dropped with an error line. *)
Lemma macos_metadata_fallbacks_witness :
  macCandidate "darwin" titleOnlyMac macGames "777"
    = ([{| appid := VStr "777"; name := VStr "Seven";
           gamePath := VStr "/Games/Seven"; gameStoreId := "gog" |}], []) /\
  macCandidate "darwin" opaqueIdMac macGames "777"
    = ([], [log error "Failed to parse GOG game info"]).
Proof.
  split.
  - exact (macos_metadata_fallbacks "darwin" titleOnlyMac macGames "777" "seven"
             [("title", VStr "Seven"); ("installDirectory", VStr "/Games/Seven")]
             "/Games/Seven" eq_refl eq_refl eq_refl
             (fun H => match H in (_ = s) return
                         (match s with EmptyString => False | _ => True end) with
                       | eq_refl => I end) eq_refl).
  - exact (macos_metadata_fallbacks "darwin" opaqueIdMac macGames "777" "opaque"
             [("gameId", VObj [("toString", VNum "1")]);
              ("installDirectory", VStr "/Games/Seven")]
             "/Games/Seven" eq_refl eq_refl eq_refl
             (fun H => match H in (_ = s) return
                         (match s with EmptyString => False | _ => True end) with
                       | eq_refl => I end) eq_refl).
Defined.

(* ------------------------------------------------------------------ *)
(** ** The execution plan *)

(** X9: [getExecInfo(appId)] does what [findByAppId(appId)] does and
    then, on the entry found, checks the client path: it rejects with the
    same entry-not-found error when the lookup does; with the entry found,
    it rejects with the not-installed error when no client path is known
    and settles as the callback that builds the plan for that entry does
    otherwise.  Both leave the same state behind. *)
Theorem getExecInfo_after_lookup (appId : string) (w : World) (st : State) :
  fst (getExecInfo appId w st) =
    match fst (findByAppId (OneId appId) w st) with
    | Resolved e =>
        match mClientPath st with
        | None => Rejected notInstalled
        | Some basePath =>
            andThen (Resolved basePath)
                    (fun basePath => execPlan (processPlatform st) basePath e)
        end
    | Rejected err => Rejected err
    | Threw err => Threw err
    end /\
  snd (getExecInfo appId w st) = snd (findByAppId (OneId appId) w st).
Proof.
  rewrite getExecInfo_eq, findByAppId_eq. cbn [fst snd].
  split; [|reflexivity].
  destruct (settled (fst (allGames w st))) as [es| |]; cbn [andThen]; try reflexivity.
  cbn [queryText].
  change (matcher (OneId appId))
    with (fun entry : GameStoreEntry => strict_eq_str appId (appid entry)).
  destruct (find (fun entry => strict_eq_str appId (appid entry)) es); cbn.
  - destruct (mClientPath st); [destruct (execPlan _ _ _)|]; reflexivity.
  - reflexivity.
Qed.

(** X10: whenever [getExecInfo] resolves, the executable of its plan is
    the path that [getGameStorePath()] resolves with, on every platform. *)
Theorem execPath_is_store_path (appId : string) (w : World) (st : State)
        (plan : ExecInfo) :
  fst (getExecInfo appId w st) = Resolved plan ->
  getGameStorePath st = Resolved (Some (execPath plan)).
Proof.
  rewrite getExecInfo_eq. cbn [fst].
  destruct (settled (fst (allGames w st))) as [es| |]; cbn [andThen]; try discriminate.
  destruct (find _ es) as [e|]; [|discriminate].
  unfold getGameStorePath, execPlan.
  destruct (mClientPath st) as [basePath|]; [|discriminate].
  cbn [andThen].
  destruct (ToString (appid e)); [|discriminate].
  destruct (ToString (gamePath e)); [|discriminate].
  destruct (processPlatform st =? "darwin")%string; intros [= <-]; reflexivity.
Qed.

Lemma execPath_is_store_path_witness :
  getGameStorePath fooCached = Resolved (Some "C:\GOG Galaxy\GalaxyClient.exe").
Proof.
  exact (execPath_is_store_path "9999" bareWorld fooCached
           {| execPath := "C:\GOG Galaxy\GalaxyClient.exe";
              arguments := ["/command=runGame"; "/gameId=9999";
                            ("path=" ++ dquote ++ "C:\Games\Foo" ++ dquote)%string] |}
           eq_refl).
Defined.

(** X11: a plan that [getExecInfo(appId)] resolves with is built from an
    entry of the snapshot whose appid is the string asked for and from the
    client path.  It has three arguments: the run command, the game id,
    which is always the appId asked for, and the quoted game path last.  On
    darwin the executable is the client path itself and the game id comes
    first; elsewhere the executable is [GalaxyClient.exe] under the client
    path and the command comes first. *)
Theorem exec_plan_shape (appId : string) (w : World) (st : State) (plan : ExecInfo) :
  fst (getExecInfo appId w st) = Resolved plan ->
  exists e basePath dir,
    In e (snapshot (fst (allGames w st))) /\
    appid e = VStr appId /\
    ToString (gamePath e) = Some dir /\
    mClientPath st = Some basePath /\
    plan =
      (if (processPlatform st =? "darwin")%string then
         {| execPath := basePath;
            arguments := [("/gameId=" ++ appId)%string;
                          "/command=runGame";
                          ("path=" ++ dquote ++ dir ++ dquote)%string] |}
       else
         {| execPath := path_join (processPlatform st) [basePath; "GalaxyClient.exe"];
            arguments := ["/command=runGame";
                          ("/gameId=" ++ appId)%string;
                          ("path=" ++ dquote ++ dir ++ dquote)%string] |}).
Proof.
  rewrite getExecInfo_eq. cbn [fst]. unfold snapshot.
  destruct (settled (fst (allGames w st))) as [es| |]; cbn [andThen]; try discriminate.
  destruct (find _ es) as [e|] eqn:Hf; [|discriminate].
  destruct (mClientPath st) as [basePath|]; [|discriminate].
  apply find_some in Hf. destruct Hf as [Hin He].
  apply strict_eq_str_spec in He.
  unfold execPlan. rewrite He. cbn [ToString andThen].
  destruct (ToString (gamePath e)) as [dir|] eqn:Hdir; [|discriminate].
  intros Hplan.
  exists e, basePath, dir. split; [assumption|]. split; [assumption|].
  split; [assumption|]. split; [reflexivity|].
  destruct (processPlatform st =? "darwin")%string; injection Hplan as <-; reflexivity.
Qed.

(** On a Mac with the client in [/Applications] the bundle itself is
    launched, with the game id first. *)
Lemma exec_plan_shape_witness :
  exists e basePath dir,
    In e (snapshot (fst (allGames bareWorld macClientCached))) /\
    appid e = VStr "67890" /\
    ToString (gamePath e) = Some dir /\
    mClientPath macClientCached = Some basePath /\
    {| execPath := "/Applications/GOG Galaxy.app";
       arguments := ["/gameId=67890"; "/command=runGame";
                     ("path=" ++ dquote ++ "/Games/Test Game 2" ++ dquote)%string] |} =
      (if (processPlatform macClientCached =? "darwin")%string then
         {| execPath := basePath;
            arguments := [("/gameId=" ++ "67890")%string;
                          "/command=runGame";
                          ("path=" ++ dquote ++ dir ++ dquote)%string] |}
       else
         {| execPath := path_join (processPlatform macClientCached)
                                  [basePath; "GalaxyClient.exe"];
            arguments := ["/command=runGame";
                          ("/gameId=" ++ "67890")%string;
                          ("path=" ++ dquote ++ dir ++ dquote)%string] |}).
Proof.
  exact (exec_plan_shape "67890" bareWorld macClientCached
           {| execPath := "/Applications/GOG Galaxy.app";
              arguments := ["/gameId=67890"; "/command=runGame";
                            ("path=" ++ dquote ++ "/Games/Test Game 2" ++ dquote)%string] |}
           eq_refl).
Defined.

(* ------------------------------------------------------------------ *)
(** ** Lookup by appid: one id and collections *)

Lemma includes_singleton (a : string) (v : value) :
  includes [a] v = strict_eq_str a v.
Proof. unfold includes. simpl. apply orb_false_r. Qed.

(** X12: a collection of one id is the same request as that id alone:
    the same entry, the same error with the same text, the same state. *)
Theorem findByAppId_singleton (a : string) (w : World) (st : State) :
  findByAppId (ManyIds [a]) w st = findByAppId (OneId a) w st.
Proof.
  rewrite !findByAppId_eq. f_equal.
  apply andThen_ext. intros es. cbn [queryText String.concat]. f_equal.
  apply find_ext'. intros e. apply includes_singleton.
Qed.

(** X13: on a reachable instance the empty collection of ids finds
    nothing: the promise rejects with the entry-not-found error, whose
    query text is the empty string. *)
Theorem findByAppId_no_ids (w : World) (st : State) :
  reachable st ->
  fst (findByAppId (ManyIds []) w st) = Rejected (GameEntryNotFound "" "gog").
Proof.
  intros Hr. apply reachable_inv in Hr.
  destruct (allGames_resolves w st Hr) as (es & Hs & _).
  rewrite findByAppId_eq. cbn [fst]. rewrite Hs. cbn [andThen].
  assert (Hf : find (matcher (ManyIds [])) es = None).
  { apply find_none. apply Forall_forall. intros x _. reflexivity. }
  rewrite Hf. reflexivity.
Qed.

Lemma findByAppId_no_ids_witness :
  reachable macCached /\
  fst (findByAppId (ManyIds []) twoGamesMac macCached)
    = Rejected (GameEntryNotFound "" "gog").
Proof.
  assert (Hr : reachable macCached) by (apply reach_run; apply reach_new).
  split; [exact Hr|].
  exact (findByAppId_no_ids twoGamesMac macCached Hr).
Defined.

(* ------------------------------------------------------------------ *)
(** ** Lookup by name: what the compiled pattern accepts *)

Module RegExpShapes.
Import RegExp RegExpNotions.

Lemma list_of_string_inj (s t : string) :
  list_ascii_of_string s = list_ascii_of_string t -> s = t.
Proof.
  intros H. rewrite <- (string_of_list_ascii_of_string s), H.
  apply string_of_list_ascii_of_string.
Qed.

Lemma starts_with_list (s a : string) :
  (exists t, list_ascii_of_string s = list_ascii_of_string a ++ t) <->
  (exists rest, s = (a ++ rest)%string).
Proof.
  split.
  - intros (t & H). exists (string_of_list_ascii t).
    apply list_of_string_inj.
    rewrite RegExpFacts.list_ascii_of_string_app, list_ascii_of_string_of_list_ascii.
    exact H.
  - intros (rest & ->). exists (list_ascii_of_string rest).
    apply RegExpFacts.list_ascii_of_string_app.
Qed.

Lemma ends_with_list (s b : string) :
  (exists t, list_ascii_of_string s = t ++ list_ascii_of_string b) <->
  (exists front, s = (front ++ b)%string).
Proof.
  split.
  - intros (t & H). exists (string_of_list_ascii t).
    apply list_of_string_inj.
    rewrite RegExpFacts.list_ascii_of_string_app, list_ascii_of_string_of_list_ascii.
    exact H.
  - intros (front & ->). exists (list_ascii_of_string front).
    apply RegExpFacts.list_ascii_of_string_app.
Qed.

Lemma scan_literal_app (cs rest : list ascii) (sc : scanner) :
  forallb (fun c => negb (is_syntax_char c)) cs = true ->
  escaped sc = false ->
  scan (cs ++ rest) sc = scan rest (after_literal cs sc).
Proof.
  revert sc. induction cs as [|c cs IH]; intros sc Hall He.
  - reflexivity.
  - cbn [forallb] in Hall. apply andb_true_iff in Hall. destruct Hall as [Hc Hall].
    apply negb_true_iff in Hc.
    cbn [app scan]. rewrite (RegExpFacts.scan_char_literal _ _ Hc He).
    rewrite (IH (push (TAtom (AChar c) One) Fresh sc) Hall eq_refl).
    f_equal. unfold after_literal, push. cbn [cur done lit map rev].
    destruct cs as [|c' cs]; [reflexivity|].
    cbn [lit map rev]. rewrite <- !app_assoc. reflexivity.
Qed.

Lemma after_literal_escaped (cs : list ascii) (sc : scanner) :
  escaped sc = false -> escaped (after_literal cs sc) = false.
Proof. destruct cs; auto. Qed.

Lemma after_literal_cur (cs : list ascii) (sc : scanner) :
  cur (after_literal cs sc) = rev (lit cs) ++ cur sc /\
  done (after_literal cs sc) = done sc.
Proof. destruct cs; auto. Qed.

(** [a|b] for literal [a] and [b]. *)
Lemma compile_two_literals (a b : string) :
  literal a = true -> literal b = true ->
  compile (a ++ "|" ++ b) =
    Compiled [lit (list_ascii_of_string a); lit (list_ascii_of_string b)].
Proof.
  intros Ha Hb. unfold compile.
  rewrite RegExpFacts.list_ascii_of_string_app.
  rewrite (scan_literal_app _ _ scan0 Ha eq_refl).
  cbn [String.append list_ascii_of_string scan].
  destruct (after_literal_cur (list_ascii_of_string a) scan0) as [Hcur Hdone].
  unfold scan_char.
  rewrite (after_literal_escaped _ scan0 eq_refl). cbn [Ascii.eqb Bool.eqb].
  cbn match.
  rewrite RegExpFacts.scan_literal; [|exact Hb|reflexivity].
  cbn [cur done]. rewrite Hcur, Hdone. cbn [scan0 cur done].
  rewrite !app_nil_r, !rev_involutive. reflexivity.
Qed.

(** [^a\$]: the backslash that ends the caller's pattern escapes the [$]
    that [findByName] appends. *)
Lemma compile_trailing_backslash (a : string) :
  literal a = true ->
  compile ("^" ++ (a ++ "\") ++ "$") =
    Compiled [TStart :: lit (list_ascii_of_string (a ++ "$"))].
Proof.
  intros Ha. unfold compile.
  change ("^" ++ (a ++ "\") ++ "$")%string with (String "^" ((a ++ "\") ++ "$")%string).
  cbn [list_ascii_of_string scan].
  change (scan_char "^" scan0) with (Next (push TStart NoAtom scan0)).
  rewrite !RegExpFacts.list_ascii_of_string_app. rewrite <- app_assoc.
  rewrite (scan_literal_app _ _ (push TStart NoAtom scan0) Ha eq_refl).
  destruct (after_literal_cur (list_ascii_of_string a) (push TStart NoAtom scan0))
    as [Hcur Hdone].
  cbn [list_ascii_of_string app scan].
  unfold scan_char at 1.
  rewrite (after_literal_escaped _ (push TStart NoAtom scan0) eq_refl).
  cbn [Ascii.eqb Bool.eqb]. cbn match.
  unfold scan_char. cbn [escaped is_escapable is_syntax_char existsb Ascii.eqb Bool.eqb orb].
  cbn match. cbn [push cur done escaped].
  rewrite Hcur, Hdone. cbn [push scan0 cur done].
  unfold lit. rewrite map_app. cbn [map rev].
  rewrite !rev_app_distr, rev_involutive. reflexivity.
Qed.

Lemma match_lit_prefix (cs s : list ascii) (at0 : bool) :
  match_terms (lit cs) at0 s = true <-> exists t, s = cs ++ t.
Proof.
  revert s at0. induction cs as [|c cs IH]; intros s at0.
  - simpl. split; [intros _; exists s; reflexivity|reflexivity].
  - destruct s as [|x s]; cbn [lit map match_terms atom_ok].
    + split; [discriminate|intros (t & H); discriminate].
    + fold (lit cs). rewrite andb_true_iff, IH, Ascii.eqb_eq. split.
      * intros [-> (t & ->)]. exists t. reflexivity.
      * intros (t & [= -> ->]). split; [reflexivity|exists t; reflexivity].
Qed.

Lemma search_start_prefix (cs s : list ascii) :
  search [TStart :: lit cs] true s = true <-> exists t, s = cs ++ t.
Proof.
  destruct s as [|x s]; cbn [search match_here existsb match_terms andb].
  - rewrite !orb_false_r. apply match_lit_prefix.
  - rewrite RegExpFacts.search_start_only, !orb_false_r. apply match_lit_prefix.
Qed.

(** [^a|b$] accepts what starts with [a] and what ends with [b]. *)
Lemma search_start_or_end (a b s : list ascii) (at0 : bool) :
  search [TStart :: lit a; lit b ++ [TEnd]] at0 s = true <->
  (at0 = true /\ exists t, s = a ++ t) \/ (exists t, s = t ++ b).
Proof.
  revert at0. induction s as [|x s IH]; intros at0.
  - cbn [search match_here existsb]. rewrite !orb_false_r, orb_true_iff.
    cbn [match_terms]. rewrite andb_true_iff, match_lit_prefix, RegExpFacts.match_literal.
    split.
    + intros [[-> H]|H]; [left; auto|right; exists []; exact H].
    + intros [[-> H]|(t & H)]; [left; auto|right].
      symmetry in H. apply app_eq_nil in H. destruct H as [_ ->]. reflexivity.
  - cbn [search match_here existsb]. rewrite !orb_false_r, !orb_true_iff.
    cbn [match_terms]. rewrite andb_true_iff, match_lit_prefix, RegExpFacts.match_literal.
    rewrite IH. split.
    + intros [[[-> H]|H]|[[H _]|(t & ->)]].
      * left. auto.
      * right. exists []. exact H.
      * discriminate.
      * right. exists (x :: t). reflexivity.
    + intros [[-> H]|(t & H)].
      * left. left. auto.
      * destruct t as [|y t].
        -- left. right. exact H.
        -- right. right. injection H as -> ->. exists t. reflexivity.
Qed.

End RegExpShapes.

Lemma findOrThrow_found {A : Type} (f : A -> option bool) (l : list A) (e : A) :
  findOrThrow f l = Resolved (Some e) <->
  exists l1 l2, l = l1 ++ e :: l2 /\ f e = Some true /\
                Forall (fun x => f x = Some false) l1.
Proof.
  split.
  - induction l as [|x l IH]; simpl; [discriminate|].
    destruct (f x) as [[|]|] eqn:Hx; try discriminate.
    + intros [= <-]. exists [], l. auto.
    + intros H. destruct (IH H) as (l1 & l2 & -> & He & Hl1).
      exists (x :: l1), l2. auto.
  - intros (l1 & l2 & -> & He & Hl1).
    induction Hl1 as [|x l1 Hx _ IH]; simpl.
    + rewrite He. reflexivity.
    + rewrite Hx. exact IH.
Qed.

Lemma findOrThrow_none {A : Type} (f : A -> option bool) (l : list A) :
  findOrThrow f l = Resolved None <-> Forall (fun x => f x = Some false) l.
Proof.
  induction l as [|x l IH]; simpl; [split; auto|].
  destruct (f x) as [[|]|] eqn:Hx.
  - split; [discriminate|]. intros H. inversion H. congruence.
  - split; [intros H; constructor; [assumption|apply IH; assumption]|].
    intros H. inversion H. apply IH. assumption.
  - split; [discriminate|]. intros H. inversion H. congruence.
Qed.

Lemma findOrThrow_threw {A : Type} (f : A -> option bool) (l : list A) (err : JsError) :
  findOrThrow f l = Threw err <->
  err = notPrimitive /\
  exists l1 x l2, l = l1 ++ x :: l2 /\ f x = None /\
                  Forall (fun y => f y = Some false) l1.
Proof.
  split.
  - induction l as [|a l IH]; simpl; [discriminate|].
    destruct (f a) as [[|]|] eqn:Ha; try discriminate.
    + intros H. destruct (IH H) as (-> & l1 & x & l2 & -> & Hn & Hl1).
      split; [reflexivity|]. exists (a :: l1), x, l2. auto.
    + intros [= <-]. split; [reflexivity|]. exists [], a, l. auto.
  - intros (-> & l1 & x & l2 & -> & Hn & Hl1).
    induction Hl1 as [|a l1 Ha _ IH]; simpl.
    + rewrite Hn. reflexivity.
    + rewrite Ha. exact IH.
Qed.

Lemma findOrThrow_rejected {A : Type} (f : A -> option bool) (l : list A) (err : JsError) :
  findOrThrow f l <> Rejected err.
Proof.
  induction l as [|a l IH]; simpl; [discriminate|].
  destruct (f a) as [[|]|]; try discriminate. exact IH.
Qed.

Lemma testName_true (test : string -> bool) (P : string -> Prop) (x : GameStoreEntry) :
  (forall title, test title = true <-> P title) ->
  testName test x = Some true <-> exists title, ToString (name x) = Some title /\ P title.
Proof.
  intros HP. unfold testName. destruct (ToString (name x)) as [t|]; simpl.
  - split.
    + intros [= H]. exists t. split; [reflexivity|]. apply HP. exact H.
    + intros (t' & [= <-] & H). f_equal. apply HP. exact H.
  - split; [discriminate|]. intros (t' & H & _). discriminate.
Qed.

Lemma testName_false (test : string -> bool) (P : string -> Prop) (x : GameStoreEntry) :
  (forall title, test title = true <-> P title) ->
  testName test x = Some false <-> passedOver P x.
Proof.
  intros HP. unfold testName, passedOver. destruct (ToString (name x)) as [t|]; simpl.
  - split.
    + intros [= H]. exists t. split; [reflexivity|].
      intros HPt. apply HP in HPt. congruence.
    + intros (t' & [= <-] & H). f_equal. apply not_true_is_false.
      intros Ht. apply H. apply HP. exact Ht.
  - split; [discriminate|]. intros (t' & H & _). discriminate.
Qed.

Lemma passedOver_all (test : string -> bool) (P : string -> Prop)
      (l : list GameStoreEntry) :
  (forall title, test title = true <-> P title) ->
  Forall (fun x => testName test x = Some false) l <-> Forall (passedOver P) l.
Proof.
  intros HP. split; intros H; (eapply Forall_impl; [|exact H]);
    intros x Hx; apply (testName_false test P x HP); exact Hx.
Qed.

(** The lookup of [findByName] on a snapshot, for a test that accepts
    exactly the titles that [P] holds of. *)
Lemma lookup_findsByTitle (test : string -> bool) (P : string -> Prop)
      (namePattern : string) (es : list GameStoreEntry) :
  (forall title, test title = true <-> P title) ->
  findsByTitle P namePattern es
    (andThen (andThen (Resolved es) (fun entries => findOrThrow (testName test) entries))
             (fun entry => entryOrNotFound namePattern entry)).
Proof.
  intros HP.
  assert (F1 : forall e, firstMatch P es e <->
                         findOrThrow (testName test) es = Resolved (Some e)).
  { intros e. unfold firstMatch. split.
    - intros (l1 & l2 & t & Hes & Ht & HPt & Hl1).
      apply findOrThrow_found. exists l1, l2. split; [assumption|].
      split; [|apply (passedOver_all test P l1 HP); assumption].
      apply (testName_true test P e HP). exists t. auto.
    - intros H. apply findOrThrow_found in H.
      destruct H as (l1 & l2 & Hes & He & Hl1).
      apply (testName_true test P e HP) in He. destruct He as (t & Ht & HPt).
      exists l1, l2, t. split; [assumption|]. split; [assumption|].
      split; [assumption|]. apply (passedOver_all test P l1 HP). assumption. }
  assert (F2 : Forall (passedOver P) es <->
               findOrThrow (testName test) es = Resolved None).
  { split; intros H.
    - apply findOrThrow_none. apply (passedOver_all test P es HP). assumption.
    - apply (passedOver_all test P es HP). apply findOrThrow_none. assumption. }
  assert (F3 : firstUntitled P es <->
               findOrThrow (testName test) es = Threw notPrimitive).
  { unfold firstUntitled. split.
    - intros (l1 & x & l2 & Hes & Hx & Hl1).
      apply findOrThrow_threw. split; [reflexivity|]. exists l1, x, l2.
      split; [assumption|]. split; [unfold testName; rewrite Hx; reflexivity|].
      apply (passedOver_all test P l1 HP). assumption.
    - intros H. apply findOrThrow_threw in H.
      destruct H as (_ & l1 & x & l2 & Hes & Hx & Hl1).
      exists l1, x, l2. split; [assumption|].
      split; [|apply (passedOver_all test P l1 HP); assumption].
      unfold testName in Hx. destruct (ToString (name x)); [discriminate|reflexivity]. }
  unfold findsByTitle. cbn [andThen].
  destruct (findOrThrow (testName test) es) as [[e'|]|err|err] eqn:Hf.
  - cbn. split; [|split].
    + intros e. split; [intros [= <-]; apply F1; reflexivity|].
      intros H. apply F1 in H. congruence.
    + split; [discriminate|]. intros H. apply F2 in H. discriminate.
    + split; [discriminate|]. intros H. apply F3 in H. discriminate.
  - cbn. split; [|split].
    + intros e. split; [discriminate|]. intros H. apply F1 in H. discriminate.
    + split; [intros _; apply F2; reflexivity|reflexivity].
    + split; [discriminate|]. intros H. apply F3 in H. discriminate.
  - destruct (findOrThrow_rejected _ _ _ Hf).
  - apply findOrThrow_threw in Hf. destruct Hf as [-> Hf].
    cbn. split; [|split].
    + intros e. split; [discriminate|]. intros H. apply F1 in H. discriminate.
    + split; [discriminate|]. intros H. apply F2 in H. discriminate.
    + split; [intros _; apply F3; reflexivity|reflexivity].
Qed.

(** [findByName] with a pattern whose compiled form accepts exactly the
    titles that satisfy [P]. *)
Lemma findByName_first (namePattern : string) (w : World) (st : State)
      (re : RegExp.regex) (es : list GameStoreEntry) (P : string -> Prop) :
  RegExp.compile ("^" ++ namePattern ++ "$")%string = RegExp.Compiled re ->
  (forall title, RegExp.test re title = true <-> P title) ->
  settled (fst (allGames w st)) = Resolved es ->
  exists r,
    findByName namePattern w st = (r, snd (allGames w st)) /\
    findsByTitle P namePattern es r.
Proof.
  intros Hre HP Hs.
  rewrite (findByName_eq _ _ _ _ Hre). rewrite Hs.
  eexists. split; [reflexivity|].
  apply lookup_findsByTitle. exact HP.
Qed.

(** X14: a pattern that begins with a quantifier makes [findByName] throw
    the SyntaxError of the RegExp constructor before anything else
    happens: no promise is returned, nothing is enumerated, the state is as
    before. *)
Theorem findByName_bad_quantifier (q : ascii) (rest : string) (w : World) (st : State) :
  q = "*"%char \/ q = "+"%char \/ q = "?"%char ->
  findByName (String q rest) w st = (Threw (SyntaxError "Nothing to repeat"), st).
Proof.
  intros [-> | [-> | ->]]; reflexivity.
Qed.

Lemma findByName_bad_quantifier_witness :
  findByName "*Game" twoGamesMac (constructor "darwin" twoGamesMac)
    = (Threw (SyntaxError "Nothing to repeat"), constructor "darwin" twoGamesMac).
Proof.
  exact (findByName_bad_quantifier "*" "Game" twoGamesMac
           (constructor "darwin" twoGamesMac) (or_introl eq_refl)).
Defined.

(** X15: for a pattern with no regex syntax character, [findByName]
    resolves with the first entry of the snapshot whose title, as a
    string, is the pattern, provided the names before it convert to
    strings; it rejects with the entry-not-found error, carrying the
    pattern and ['gog'], exactly when every name converts to a string
    other than the pattern; and it rejects with the TypeError of the
    conversion exactly when a name without one comes before any match. *)
Theorem findByName_exact_title (namePattern : string) (w : World) (st : State)
        (es : list GameStoreEntry) :
  RegExp.literal namePattern = true ->
  settled (fst (allGames w st)) = Resolved es ->
  exists r,
    findByName namePattern w st = (r, snd (allGames w st)) /\
    findsByTitle (fun title => title = namePattern) namePattern es r.
Proof.
  intros Hlit Hs.
  apply (findByName_first namePattern w st _ es (fun title => title = namePattern)
           (RegExpFacts.compile_anchored _ _ (RegExpFacts.compile_literal _ Hlit)));
    [|exact Hs].
  intros title.
  rewrite RegExpFacts.test_anchored_single, RegExpFacts.whole_match_literal.
  apply String.eqb_eq.
Qed.

(** On the Mac of the test suite [Test Game 2] is found behind
    [Test Game 1]; on [opaqueNameMac] the one entry has a name without a
    string conversion, and the lookup rejects with the TypeError. *)
Lemma findByName_exact_title_witness :
  (findByName "Test Game 2" bareWorld macCached = (Resolved testGame2, macCached) /\
   firstMatch (fun title => title = "Test Game 2") [testGame1; testGame2] testGame2) /\
  (findByName "Seven" bareWorld opaqueNameCached
     = (Rejected notPrimitive, opaqueNameCached) /\
   firstUntitled (fun title => title = "Seven") [opaqueEntry]).
Proof.
  split.
  - destruct (findByName_exact_title "Test Game 2" bareWorld macCached
                [testGame1; testGame2] eq_refl eq_refl) as (r & Hr & Hfound & _).
    assert (Er : r = Resolved testGame2).
    { vm_compute in Hr. injection Hr as <-. reflexivity. }
    split; [reflexivity|]. apply Hfound. exact Er.
  - destruct (findByName_exact_title "Seven" bareWorld opaqueNameCached
                [opaqueEntry] eq_refl eq_refl) as (r & Hr & _ & _ & Hthrown).
    assert (Er : r = Rejected notPrimitive).
    { vm_compute in Hr. injection Hr as <-. reflexivity. }
    split; [reflexivity|]. apply Hthrown. exact Er.
Defined.

(** X16: for a pattern [a|b] of two literal alternatives, the anchors
    that [findByName] adds bind to one side each: it resolves with the
    first entry whose title starts with [a] or ends with [b], rejects with
    the entry-not-found error exactly when every name converts to a string
    that does neither, and rejects with the TypeError of the conversion
    exactly when a name without one comes before any match. *)
Theorem findByName_two_alternatives (a b : string) (w : World) (st : State)
        (es : list GameStoreEntry) :
  RegExp.literal a = true -> RegExp.literal b = true ->
  settled (fst (allGames w st)) = Resolved es ->
  exists r,
    findByName (a ++ "|" ++ b) w st = (r, snd (allGames w st)) /\
    findsByTitle (fun title => (exists rest, title = (a ++ rest)%string) \/
                               (exists front, title = (front ++ b)%string))
                 (a ++ "|" ++ b) es r.
Proof.
  intros Ha Hb Hs.
  apply (findByName_first (a ++ "|" ++ b) w st _ es
           (fun title => (exists rest, title = (a ++ rest)%string) \/
                         (exists front, title = (front ++ b)%string))
           (RegExpFacts.compile_anchored _ _ (RegExpShapes.compile_two_literals _ _ Ha Hb)));
    [|exact Hs].
  intros title. unfold RegExp.test. cbn [RegExp.add_start RegExp.add_end].
  rewrite RegExpShapes.search_start_or_end.
  rewrite RegExpShapes.starts_with_list, RegExpShapes.ends_with_list.
  split; [intros [[_ H]|H]; auto|intros [H|H]; auto].
Qed.

(** [Test|Game] finds [Test Game 10], which starts with [Test]. *)
Lemma findByName_two_alternatives_witness :
  findByName ("Test" ++ "|" ++ "Game") bareWorld testGame10Cached
    = (Resolved testGame10, testGame10Cached) /\
  firstMatch (fun title => (exists rest, title = ("Test" ++ rest)%string) \/
                           (exists front, title = (front ++ "Game")%string))
             (snapshot (fst (allGames bareWorld testGame10Cached))) testGame10.
Proof.
  destruct (findByName_two_alternatives "Test" "Game" bareWorld testGame10Cached
              _ eq_refl eq_refl eq_refl) as (r & Hr & Hfound & _).
  assert (Er : r = Resolved testGame10).
  { vm_compute in Hr. injection Hr as <-. reflexivity. }
  split; [reflexivity|]. apply Hfound. exact Er.
Defined.

(** X17: a pattern of literal text that ends in a lone backslash raises
    no error: the backslash escapes the [$] that [findByName] appends, so
    the end anchor is lost and a literal dollar sign is required instead.
    [findByName] then resolves with the first entry whose title starts
    with that text followed by [$], rejects with the entry-not-found error
    exactly when every name converts to a string that does not, and
    rejects with the TypeError of the conversion exactly when a name
    without one comes before any match. *)
Theorem findByName_trailing_backslash (a : string) (w : World) (st : State)
        (es : list GameStoreEntry) :
  RegExp.literal a = true ->
  settled (fst (allGames w st)) = Resolved es ->
  exists r,
    findByName (a ++ "\") w st = (r, snd (allGames w st)) /\
    findsByTitle (fun title => exists rest, title = ((a ++ "$") ++ rest)%string)
                 (a ++ "\") es r.
Proof.
  intros Ha Hs.
  apply (findByName_first (a ++ "\") w st _ es
           (fun title => exists rest, title = ((a ++ "$") ++ rest)%string)
           (RegExpShapes.compile_trailing_backslash _ Ha));
    [|exact Hs].
  intros title. unfold RegExp.test.
  rewrite RegExpShapes.search_start_prefix.
  apply RegExpShapes.starts_with_list.
Qed.

(** No title of the test suite holds a dollar sign: the lookup of
    [Test Game 1\] passes over both entries. *)
Lemma findByName_trailing_backslash_witness :
  findByName ("Test Game 1" ++ "\") bareWorld macCached
    = (Rejected (GameEntryNotFound ("Test Game 1" ++ "\") "gog"), macCached) /\
  Forall (passedOver (fun title =>
                        exists rest, title = (("Test Game 1" ++ "$") ++ rest)%string))
         [testGame1; testGame2].
Proof.
  destruct (findByName_trailing_backslash "Test Game 1" bareWorld macCached
              [testGame1; testGame2] eq_refl eq_refl) as (r & Hr & _ & Hmiss & _).
  assert (Er : r = Rejected (GameEntryNotFound ("Test Game 1" ++ "\") "gog")).
  { vm_compute in Hr. injection Hr as <-. reflexivity. }
  split; [reflexivity|]. apply Hmiss. exact Er.
Defined.

(** X18: for a pattern that compiles to a single alternative (no
    top-level [|]), the test that [findByName] applies to a title is the
    whole match: the pattern, started at the first character of the title,
    must end at its last.  [findByName] resolves with the first entry whose
    title matches so, rejects with the entry-not-found error exactly when
    every name converts to a string that does not, and rejects with the
    TypeError of the conversion exactly when a name without one comes
    before any match. *)
Theorem findByName_whole_title (namePattern : string) (w : World) (st : State)
        (alt : list RegExp.term) (es : list GameStoreEntry) :
  RegExp.compile namePattern = RegExp.Compiled [alt] ->
  settled (fst (allGames w st)) = Resolved es ->
  exists r,
    findByName namePattern w st = (r, snd (allGames w st)) /\
    findsByTitle (fun title => RegExp.whole_match [alt] title = true) namePattern es r.
Proof.
  intros Hc Hs.
  apply (findByName_first namePattern w st _ es
           (fun title => RegExp.whole_match [alt] title = true)
           (RegExpFacts.compile_anchored _ _ Hc));
    [|exact Hs].
  intros title. rewrite RegExpFacts.test_anchored_single. reflexivity.
Qed.

(** [Test Game .] has one alternative: ten literal characters and a
    dot.  It finds [Test Game 1], the first entry. *)
Lemma findByName_whole_title_witness :
  RegExp.compile "Test Game ."
    = RegExp.Compiled [RegExp.lit (list_ascii_of_string "Test Game ") ++
                       [RegExp.TAtom RegExp.AAny RegExp.One]] /\
  findByName "Test Game ." bareWorld macCached = (Resolved testGame1, macCached) /\
  firstMatch (fun title =>
                RegExp.whole_match
                  [RegExp.lit (list_ascii_of_string "Test Game ") ++
                   [RegExp.TAtom RegExp.AAny RegExp.One]] title = true)
             [testGame1; testGame2] testGame1.
Proof.
  destruct (findByName_whole_title "Test Game ." bareWorld macCached
              (RegExp.lit (list_ascii_of_string "Test Game ") ++
               [RegExp.TAtom RegExp.AAny RegExp.One])
              [testGame1; testGame2] eq_refl eq_refl) as (r & Hr & Hfound & _).
  assert (Er : r = Resolved testGame1).
  { vm_compute in Hr. injection Hr as <-. reflexivity. }
  split; [reflexivity|]. split; [reflexivity|]. apply Hfound. exact Er.
Defined.

(* ------------------------------------------------------------------ *)
(** ** Where the client path comes from *)

Lemma constructor_fresh (platform : string) (w : World) :
  mCache (constructor platform w) = None /\
  enumerations (constructor platform w) = 0 /\
  processPlatform (constructor platform w) = platform.
Proof.
  unfold constructor.
  destruct (platform =? "win32")%string; [auto|].
  destruct (platform =? "darwin")%string; [|auto].
  destruct (existsSync w standardPath); [auto|].
  destruct (existsSync w _); auto.
Qed.

(** X19: on darwin the client path is decided in the constructor and
    stays for the life of the instance: [/Applications/GOG Galaxy.app] when
    that exists, else [GOG Galaxy.app] under the user's Applications folder
    when that exists, else none; [getGameStorePath()] resolves with
    exactly that path, or with [undefined], after any history. *)
Theorem darwin_client_path (w0 : World) (h : list (World * Op)) :
  mClientPath (runAll h (constructor "darwin" w0)) = macClient w0 /\
  getGameStorePath (runAll h (constructor "darwin" w0)) = Resolved (macClient w0) /\
  (forall p, macClient w0 = Some p -> existsSync w0 p = true) /\
  (macClient w0 = None <->
   existsSync w0 standardPath = false /\
   existsSync w0 (userAppsPath "darwin" w0) = false).
Proof.
  assert (Hp : probePending (constructor "darwin" w0) = false).
  { unfold constructor. simpl.
    destruct (existsSync w0 standardPath); [reflexivity|].
    destruct (existsSync w0 _); reflexivity. }
  assert (Hc : mClientPath (constructor "darwin" w0) = macClient w0).
  { unfold constructor, macClient. simpl.
    destruct (existsSync w0 standardPath); [reflexivity|].
    destruct (existsSync w0 _); reflexivity. }
  assert (Hplat : processPlatform (constructor "darwin" w0) = "darwin")
    by apply constructor_fresh.
  destruct (client_path_frame h _ Hp) as (Hc' & Hplat').
  split; [congruence|]. split.
  - unfold getGameStorePath. rewrite Hc', Hplat', Hc, Hplat.
    destruct (macClient w0); reflexivity.
  - unfold macClient. split.
    + intros p.
      destruct (existsSync w0 standardPath) eqn:H1; [intros [= <-]; exact H1|].
      destruct (existsSync w0 (userAppsPath "darwin" w0)) eqn:H2;
        [intros [= <-]; exact H2|discriminate].
    + destruct (existsSync w0 standardPath); [split; [discriminate|intros [? _]; discriminate]|].
      destruct (existsSync w0 _); [split; [discriminate|intros [_ ?]; discriminate]|].
      split; auto.
Qed.

Lemma run_no_settle (w : World) (o : Op) (st : State) :
  match o with OpSettleProbe => false | _ => true end = true ->
  mClientPath (run w o st) = mClientPath st /\
  probePending (run w o st) = probePending st.
Proof.
  intros Ho.
  assert (Hall : mClientPath (snd (allGames w st)) = mClientPath st /\
                 probePending (snd (allGames w st)) = probePending st).
  { destruct (allGames_frame w st) as (_ & Hc & Hq). auto. }
  destruct o; simpl; try discriminate.
  - exact Hall.
  - rewrite reloadGames_eq. cbn [snd].
    destruct (getGameEntries_frame w st) as (_ & Hc & Hq).
    unfold with_cache. simpl. auto.
  - unfold findByName. destruct (newRegExp w _); auto.
    destruct (allGames w st). exact Hall.
  - unfold findByAppId. destruct (allGames w st). exact Hall.
  - unfold getExecInfo. destruct (allGames w st). exact Hall.
  - auto.
  - unfold identifyGame. destruct (fallback gamePath0); simpl; auto.
    destruct (Bool.eqb _ _); simpl; auto.
Qed.

Lemma runAll_no_settle (h : list (World * Op)) (st : State) :
  noSettle h = true ->
  mClientPath (runAll h st) = mClientPath st /\
  probePending (runAll h st) = probePending st.
Proof.
  revert st. induction h as [|[w o] h IH]; intros st Hh; simpl.
  - auto.
  - unfold noSettle in Hh. cbn [forallb snd] in Hh.
    apply andb_true_iff in Hh. destruct Hh as [Ho Hh].
    destruct (run_no_settle w o st Ho) as [Hc Hp].
    destruct (IH (run w o st) Hh) as [Hc' Hp']. split; congruence.
Qed.

Lemma runAll_app (h1 h2 : list (World * Op)) (st : State) :
  runAll (h1 ++ h2) st = runAll h2 (runAll h1 st).
Proof.
  revert st. induction h1 as [|[w o] h1 IH]; intros st; simpl; auto.
Qed.

(** X20: on win32 the client path is undefined until the probe settles,
    whatever is called meanwhile, and from then on it is what the registry
    value [client] held in the world of that moment (undefined when the
    module did not load or the value could not be read), whatever happens
    afterwards. *)
Theorem win32_client_path (w0 ws : World) (before after : list (World * Op)) :
  noSettle before = true ->
  mClientPath (runAll before (constructor "win32" w0)) = None /\
  mClientPath (runAll (before ++ (ws, OpSettleProbe) :: after) (constructor "win32" w0))
    = registryClient ws.
Proof.
  intros Hb.
  destruct (runAll_no_settle before (constructor "win32" w0) Hb) as [Hc Hp].
  split; [exact Hc|].
  rewrite runAll_app. cbn [runAll run].
  assert (Hs : mClientPath (settleProbe ws (runAll before (constructor "win32" w0)))
               = registryClient ws /\
               probePending (settleProbe ws (runAll before (constructor "win32" w0)))
               = false).
  { unfold settleProbe. rewrite Hp. simpl. auto. }
  destruct Hs as [Hs Hq].
  destruct (client_path_frame after _ Hq) as (Hc' & _). congruence.
Qed.

Lemma win32_client_path_witness :
  mClientPath (runAll [(fooWorld, OpAllGames)] (constructor "win32" bareWorld)) = None /\
  mClientPath (runAll ([(fooWorld, OpAllGames)] ++ (fooWorld, OpSettleProbe)
                         :: [(bareWorld, OpSettleProbe); (bareWorld, OpReloadGames)])
                      (constructor "win32" bareWorld))
    = registryClient fooWorld.
Proof.
  exact (win32_client_path bareWorld fooWorld [(fooWorld, OpAllGames)]
           [(bareWorld, OpSettleProbe); (bareWorld, OpReloadGames)] eq_refl).
Defined.

(* ------------------------------------------------------------------ *)
(** ** [findMacOSGOGPath] *)

(** X21: [findMacOSGOGPath()] resolves with [/Applications/GOG Galaxy.app]
    when that is a directory; failing that, with [GOG Galaxy.app] under the
    user's Applications folder when that is a directory; it rejects exactly
    when neither is, and only ever with the error [GOG Galaxy not found on
    macOS].  A path that exists without being a directory counts as absent,
    and a path it resolves with is one of the two, exists and is a
    directory. *)
Theorem findMacOSGOGPath_spec (platform : string) (w : World)
        (isDirectory : string -> bool) :
  (forall p, findMacOSGOGPath platform w isDirectory = Resolved p ->
             (p = standardPath \/ p = userAppsPath platform w) /\
             stat w p = true /\ isDirectory p = true) /\
  (stat w standardPath = true -> isDirectory standardPath = true ->
   findMacOSGOGPath platform w isDirectory = Resolved standardPath) /\
  (stat w standardPath && isDirectory standardPath = false ->
   stat w (userAppsPath platform w) = true ->
   isDirectory (userAppsPath platform w) = true ->
   findMacOSGOGPath platform w isDirectory = Resolved (userAppsPath platform w)) /\
  (findMacOSGOGPath platform w isDirectory = Rejected notFoundOnMac <->
   stat w standardPath && isDirectory standardPath = false /\
   stat w (userAppsPath platform w) && isDirectory (userAppsPath platform w) = false) /\
  (forall e, findMacOSGOGPath platform w isDirectory = Rejected e -> e = notFoundOnMac).
Proof.
  unfold findMacOSGOGPath, statKind.
  split; [|split; [|split; [|split]]].
  - intros p.
    destruct (stat w standardPath) eqn:Hs1;
      [destruct (isDirectory standardPath) eqn:Hd1|].
    + intros [= <-]. auto.
    + destruct (stat w (userAppsPath platform w)) eqn:Hs2; [|discriminate].
      destruct (isDirectory (userAppsPath platform w)) eqn:Hd2; [|discriminate].
      intros [= <-]. auto.
    + destruct (stat w (userAppsPath platform w)) eqn:Hs2; [|discriminate].
      destruct (isDirectory (userAppsPath platform w)) eqn:Hd2; [|discriminate].
      intros [= <-]. auto.
  - intros -> ->. reflexivity.
  - intros H1 -> ->.
    destruct (stat w standardPath); [|reflexivity].
    destruct (isDirectory standardPath); [discriminate|reflexivity].
  - destruct (stat w standardPath); [destruct (isDirectory standardPath)|];
      cbn [andb];
      destruct (stat w (userAppsPath platform w));
      try destruct (isDirectory (userAppsPath platform w)); cbn [andb];
      split; try discriminate; try (intros [? ?]; discriminate); auto.
  - intros e.
    destruct (stat w standardPath); [destruct (isDirectory standardPath)|];
      try discriminate;
      (destruct (stat w (userAppsPath platform w));
       [destruct (isDirectory (userAppsPath platform w))|]);
      try discriminate; intros [= <-]; reflexivity.
Qed.

(** On [userBundleMac] the system-wide path is a plain file: the bundle
    under the user's folder is found. *)
Lemma findMacOSGOGPath_spec_witness :
  findMacOSGOGPath "darwin" userBundleMac
    (fun p => p =? "/Users/tester/Applications/GOG Galaxy.app")%string
    = Resolved "/Users/tester/Applications/GOG Galaxy.app".
Proof.
  apply (proj1 (proj2 (proj2
    (findMacOSGOGPath_spec "darwin" userBundleMac
       (fun p => p =? "/Users/tester/Applications/GOG Galaxy.app")%string))));
    reflexivity.
Defined.

(** X22: the two versions of [findMacOSGOGPath] in the repository, the
    one written with [await] and [try] blocks and the one written as a
    Bluebird chain of [then] and [catch], settle alike in every world,
    whatever error [fs.stat] rejects with. *)
Theorem findMacOSGOGPath_versions_agree (platform : string) (w : World)
        (isDirectory : string -> bool) (statError : JsError) :
  findMacOSGOGPath_chain platform w isDirectory statError
    = findMacOSGOGPath platform w isDirectory.
Proof.
  unfold findMacOSGOGPath_chain, findMacOSGOGPath, statPromise.
  destruct (statKind w isDirectory standardPath) as [[|]|];
    destruct (statKind w isDirectory (userAppsPath platform w)) as [[|]|];
    reflexivity.
Qed.

(* ------------------------------------------------------------------ *)
(** ** [launchGame] *)

Lemma launchGame_eq (dirname : string -> string)
      (api : option (RunRequest -> outcome unit))
      (appInfo : string) (w : World) (st : State) :
  launchGame dirname api appInfo w st =
    match fst (getExecInfo appInfo w st) with
    | Resolved execInfo =>
        match api with
        | None => (LaunchTypeError, [], snd (getExecInfo appInfo w st))
        | Some runExecutable =>
            (LaunchSettled
               (andThen (Resolved tt)
                  (fun _ => runExecutable
                              {| run_executable := execPath execInfo;
                                 run_arguments := arguments execInfo;
                                 run_cwd := dirname (execPath execInfo);
                                 run_suggestDeploy := true;
                                 run_shell := true |})),
             [{| run_executable := execPath execInfo;
                 run_arguments := arguments execInfo;
                 run_cwd := dirname (execPath execInfo);
                 run_suggestDeploy := true;
                 run_shell := true |}],
             snd (getExecInfo appInfo w st))
        end
    | Rejected e => (LaunchSettled (Rejected e), [], snd (getExecInfo appInfo w st))
    | Threw e => (LaunchSettled (Threw e), [], snd (getExecInfo appInfo w st))
    end.
Proof. unfold launchGame. destruct (getExecInfo appInfo w st). reflexivity. Qed.

(** X23: [launchGame] calls [api.runExecutable] at most once, and only
    with a plan that [getExecInfo] resolved with for the same appId: the
    executable and the arguments of the plan, the directory of the
    executable as working directory, [shell] and [suggestDeploy] set.  When
    [getExecInfo] rejects, [launchGame] rejects with the same error and
    launches nothing. *)
Theorem launchGame_calls (dirname : string -> string)
        (api : option (RunRequest -> outcome unit))
        (appInfo : string) (w : World) (st : State) :
  length (snd (fst (launchGame dirname api appInfo w st))) <= 1 /\
  (forall request,
      In request (snd (fst (launchGame dirname api appInfo w st))) ->
      exists plan,
        fst (getExecInfo appInfo w st) = Resolved plan /\
        request = {| run_executable := execPath plan;
                     run_arguments := arguments plan;
                     run_cwd := dirname (execPath plan);
                     run_suggestDeploy := true;
                     run_shell := true |}) /\
  (forall e,
      fst (getExecInfo appInfo w st) = Rejected e ->
      fst (launchGame dirname api appInfo w st) = (LaunchSettled (Rejected e), [])) /\
  snd (launchGame dirname api appInfo w st) = snd (getExecInfo appInfo w st).
Proof.
  rewrite launchGame_eq.
  destruct (fst (getExecInfo appInfo w st)) as [plan|e|e]; [destruct api|..];
    cbn [fst snd length In]; (split; [lia|]);
    (split; [intros request H; try destruct H as [<-|[]]; try destruct H; eauto|]);
    (split; [intros e' H; try discriminate; injection H as <-; reflexivity|]);
    reflexivity.
Qed.



(* ------------------------------------------------------------------ *)
(** ** The loop over the game directories *)

Lemma macCandidates_logs_app (platform : string) (w : World) (gp : string)
      (l1 l2 : list string) :
  snd (macCandidates platform w gp (l1 ++ l2)) =
  snd (macCandidates platform w gp l1) ++ snd (macCandidates platform w gp l2).
Proof.
  induction l1 as [|g l1 IH]; simpl; [reflexivity|].
  destruct (macCandidate platform w gp g) as [es1 ls1].
  destruct (macCandidates platform w gp (l1 ++ l2)) as [es ls].
  destruct (macCandidates platform w gp l1) as [es' ls'].
  simpl in *. rewrite IH. apply app_assoc.
Qed.

(** X25: the loop over the game directories treats each candidate on its
    own and keeps the order of the listing: what it yields for a listing
    cut in two, entries and log lines alike, is what it yields for the
    first part followed by what it yields for the second.  No candidate,
    whether it is skipped, fails to parse or yields an entry, changes what
    another one yields. *)
Theorem macos_order_stable (platform : string) (w : World) (gp : string)
        (l1 l2 : list string) :
  macCandidates platform w gp (l1 ++ l2) =
    (fst (macCandidates platform w gp l1) ++ fst (macCandidates platform w gp l2),
     snd (macCandidates platform w gp l1) ++ snd (macCandidates platform w gp l2)).
Proof.
  rewrite <- macCandidates_app, <- macCandidates_logs_app.
  destruct (macCandidates platform w gp (l1 ++ l2)). reflexivity.
Qed.
